(** * tmix-security: the authorization provider of [tmix-security.js]

    A shallow embedding of the provider defined in [src/tmix-security.js]
    and the properties of its decision chain, its query matcher, its
    permissions cache and its navigation gate.

    Modelling conventions.
    - JavaScript values are the tagged union [value].  Numbers are the
      integer-valued ones (permissions documents hold identifiers such as
      [1, 2, 3]); strings are byte strings.
    - A property read [v[token]] is [get_prop]: the own properties of a
      value (the keys of an object, the indices and [length] of an array or
      of a string).  Members that every host object inherits from its
      prototype ([toString], [constructor], ...) are not part of the model.
    - The route table [$route.routes] and the [$cacheFactory] cache are
      finite maps keyed by strings; a route descriptor is a record of the
      three fields the provider reads.  The map holds the registered routes;
      the names of the members that the table inherits as a plain object
      are listed in [object_prototype_member] and excluded where a
      statement is about an identifier that is not registered.
    - User callbacks (override strategies, function queries) are pure and
      total: a function value is a handle, and [invoke] gives its result.
    - The callbacks of a promise run as soon as the transport has answered;
      no other call into the provider is interleaved.
    - [log] only writes to the console when debugging is on; those calls are
      left out. *)

From Stdlib Require Import ZArith String Ascii List Lia.
From stdpp Require Import base option list strings gmap.

Set Warnings "-register-all".

Local Open Scope string_scope.
Local Open Scope Z_scope.

(** ** JavaScript values *)

Inductive fn : Type :=
| Fn (id : nat).

Inductive value : Type :=
| VUndef
| VNull
| VBool (b : bool)
| VNum (n : Z)
| VStr (s : string)
| VArr (xs : list value)
| VObj (kvs : list (string * value))
| VFun (f : fn).

Inductive exn : Type :=
| TypeError
    (* a property read on null or undefined, or a call of a non-function *)
| CouldNotFindRoute (routePath : string)
    (* getRoute: 'Could not find route: ' + routePath *)
| CustomAuthorizationNotAFunction
    (* getCustomAuthorization *)
| CustomRouteAuthorizationNotSet (routePath : string)
    (* getCustomRouteAuthorization: "The 'customAuthorization' property is
       not set to a function on: " + routePath *)
| UnknownRouteForDeniedRoute
    (* setAccessDeniedRouteFor: 'Could not get an access denied route on an
       unknown route: ' + route *).

Inductive result (A : Type) : Type :=
| Ok (a : A)
| Throw (e : exn).
Arguments Ok {A} a.
Arguments Throw {A} e.

Definition is_undefined (v : value) : bool :=
  match v with VUndef => true | _ => false end.

Definition is_function (v : value) : bool :=
  match v with VFun _ => true | _ => false end.

(** [!!v] *)
Definition truthy (v : value) : bool :=
  match v with
  | VUndef | VNull => false
  | VBool b => b
  | VNum n => negb (n =? 0)
  | VStr s => negb (String.eqb s "")
  | VArr _ | VObj _ | VFun _ => true
  end.

(** [a || b] *)
Definition js_or (a b : value) : value := if truthy a then a else b.

(** ** Strings: [split] and array indices *)

Fixpoint rev_string (acc s : string) : string :=
  match s with
  | EmptyString => acc
  | String c s' => rev_string (String c acc) s'
  end.

(** [split_from sep skip cur s]: [cur] is the current token, reversed;
    [skip] characters of a separator that has just matched are still to be
    dropped. *)
Fixpoint split_from (sep : string) (skip : nat) (cur s : string) : list string :=
  match s with
  | EmptyString => [rev_string "" cur]
  | String c s' =>
      match skip with
      | S k => split_from sep k cur s'
      | O =>
          if String.prefix sep s
          then rev_string "" cur :: split_from sep (Nat.pred (String.length sep)) "" s'
          else split_from sep O (String c cur) s'
      end
  end.

(** [s.split(sep)] for a non-empty separator string. *)
Definition split (s sep : string) : list string := split_from sep O "" s.

Definition is_digit (c : ascii) : bool :=
  let n := N_of_ascii c in ((48 <=? n) && (n <=? 57))%N.

Fixpoint all_digits (s : string) : bool :=
  match s with
  | EmptyString => true
  | String c s' => is_digit c && all_digits s'
  end.

Fixpoint digits_value (acc : N) (s : string) : N :=
  match s with
  | EmptyString => acc
  | String c s' => digits_value (10 * acc + (N_of_ascii c - 48))%N s'
  end.

(** A property name is an array index when it is the canonical decimal
    form of an integer below 2^32 - 1. *)
Definition array_index (token : string) : option N :=
  match token with
  | EmptyString => None
  | String c rest =>
      if all_digits token && (negb (Ascii.eqb c "0") || String.eqb rest "")
      then let n := digits_value 0%N token in
           if (n <? 4294967295)%N then Some n else None
      else None
  end.

(** ** Property reads *)

Fixpoint own_property (kvs : list (string * value)) (key : string) : value :=
  match kvs with
  | [] => VUndef
  | (k, v) :: rest => if String.eqb k key then v else own_property rest key
  end.

Definition element (xs : list value) (i : N) : value :=
  if (i <? N.of_nat (length xs))%N then nth (N.to_nat i) xs VUndef else VUndef.

Definition char_at (s : string) (i : N) : value :=
  if (i <? N.of_nat (String.length s))%N
  then match String.get (N.to_nat i) s with
       | Some c => VStr (String c "")
       | None => VUndef
       end
  else VUndef.

(** [v[token]] *)
Definition get_prop (v : value) (token : string) : result value :=
  match v with
  | VUndef | VNull => Throw TypeError
  | VObj kvs => Ok (own_property kvs token)
  | VArr xs =>
      if String.eqb token "length" then Ok (VNum (Z.of_nat (length xs)))
      else match array_index token with
           | Some i => Ok (element xs i)
           | None => Ok VUndef
           end
  | VStr s =>
      if String.eqb token "length" then Ok (VNum (Z.of_nat (String.length s)))
      else match array_index token with
           | Some i => Ok (char_at s i)
           | None => Ok VUndef
           end
  | VBool _ | VNum _ | VFun _ => Ok VUndef
  end.

(** [x === token] for a string [token]. *)
Definition strict_equals_string (x : value) (token : string) : bool :=
  match x with
  | VStr s => String.eqb s token
  | _ => false
  end.

Fixpoint indexOf_from (i : Z) (xs : list value) (token : string) : Z :=
  match xs with
  | [] => -1
  | x :: rest =>
      if strict_equals_string x token then i else indexOf_from (i + 1) rest token
  end.

(** [xs.indexOf(token)] for a string [token]. *)
Definition indexOf (xs : list value) (token : string) : Z := indexOf_from 0 xs token.

(** ** The query matcher *)

(** The body of the [for] loop of [findIn], over the tokens still to visit. *)
Fixpoint findIn_loop (cursor : value) (tokens : list string) : result value :=
  match tokens with
  | [] => Ok cursor
  | token :: rest =>
      match get_prop cursor token with
      | Throw e => Throw e
      | Ok p =>
          if negb (is_undefined p) then findIn_loop p rest
          else match cursor with
               | VArr xs =>
                   if negb (indexOf xs token =? -1)
                   then findIn_loop (element xs (Z.to_N (indexOf xs token))) rest
                   else Ok VNull
               | _ => Ok VNull
               end
      end
  end.

(** [delimiter || '/'] *)
Definition delimiter_or_slash (delimiter : option string) : string :=
  match delimiter with
  | Some d => if String.eqb d "" then "/" else d
  | None => "/"
  end.

Definition findIn (query : string) (object : value) (delimiter : option string)
  : result bool :=
  match findIn_loop object (split query (delimiter_or_slash delimiter)) with
  | Ok cursor => Ok (truthy cursor)
  | Throw e => Throw e
  end.

(** ** The provider's state *)

Module Route.
(** The fields of a route descriptor that the provider reads or writes;
    an unset field is [VUndef]. *)
Record t : Type := mk {
  permissions : value;
  customAuthorization : value;
  deniedRoute : value
}.

(** A route descriptor used as a property name: a plain object converts
    to this string. *)
Definition to_string (_ : t) : string := "[object Object]".
End Route.

(** [$route.current]: [$$route.originalPath] and [params]. *)
Record current_route : Type := {
  originalPath : string;
  params : value
}.

(** The calls made on the setters of [$location]. *)
Inductive nav_event : Type :=
| SetPath (target : value)
| Replace.

Record state : Type := mkState {
  routes : gmap string Route.t;          (* injects.$route.routes *)
  current : option current_route;        (* injects.$route.current *)
  location_path : string;                (* injects.$location.path() *)
  navigation : list nav_event;           (* calls on injects.$location *)
  requests : list string;                (* calls of injects.$http.get *)
  defaultPermissions : value;
  permissionsCache : gmap string value;
  customAuthorization : value;
  defaultAccess : bool
}.

Definition set_routes (f : gmap string Route.t → gmap string Route.t) (st : state) : state :=
  mkState (f (routes st)) (current st) (location_path st) (navigation st)
          (requests st) (defaultPermissions st) (permissionsCache st)
          (customAuthorization st) (defaultAccess st).

Definition set_navigation (f : list nav_event → list nav_event) (st : state) : state :=
  mkState (routes st) (current st) (location_path st) (f (navigation st))
          (requests st) (defaultPermissions st) (permissionsCache st)
          (customAuthorization st) (defaultAccess st).

Definition set_requests (f : list string → list string) (st : state) : state :=
  mkState (routes st) (current st) (location_path st) (navigation st)
          (f (requests st)) (defaultPermissions st) (permissionsCache st)
          (customAuthorization st) (defaultAccess st).

Definition set_defaultPermissions (v : value) (st : state) : state :=
  mkState (routes st) (current st) (location_path st) (navigation st)
          (requests st) v (permissionsCache st)
          (customAuthorization st) (defaultAccess st).

Definition set_permissionsCache (f : gmap string value → gmap string value) (st : state) : state :=
  mkState (routes st) (current st) (location_path st) (navigation st)
          (requests st) (defaultPermissions st) (f (permissionsCache st))
          (customAuthorization st) (defaultAccess st).

Definition set_customAuthorization (v : value) (st : state) : state :=
  mkState (routes st) (current st) (location_path st) (navigation st)
          (requests st) (defaultPermissions st) (permissionsCache st)
          v (defaultAccess st).

Definition set_defaultAccess (b : bool) (st : state) : state :=
  mkState (routes st) (current st) (location_path st) (navigation st)
          (requests st) (defaultPermissions st) (permissionsCache st)
          (customAuthorization st) b.

(** The provider as [$get] leaves it: empty cache, no defaults, deny. *)
Definition fresh (rs : gmap string Route.t) (cur : option current_route)
    (path : string) : state :=
  mkState rs cur path [] [] VUndef ∅ VUndef false.

(** ** Computations over the state that may throw *)

Definition M (A : Type) : Type := state → result A * state.

#[global] Instance M_ret : MRet M := λ A a st, (Ok a, st).
#[global] Instance M_bind : MBind M := λ A B f m st,
  match m st with
  | (Ok a, st') => f a st'
  | (Throw e, st') => (Throw e, st')
  end.

Definition throw {A} (e : exn) : M A := λ st, (Throw e, st).
Definition gets {A} (f : state → A) : M A := λ st, (Ok (f st), st).
Definition modify (f : state → state) : M unit := λ st, (Ok tt, f st).
Definition lift {A} (r : result A) : M A := λ st, (r, st).

(** ** Promises *)

Inductive settlement : Type :=
| Resolved (v : value)
| Rejected (v : value).

(** What a call hands back: a promise that is already settled, or one that
    waits for the answer to the [$http.get] just issued. *)
Inductive promise : Type :=
| Settled (s : settlement)
| AwaitingHttp (url : string).

(** The state of a deferred once its callbacks have run. *)
Inductive deferred : Type :=
| Pending
| Done (s : settlement).

Inductive http_reply : Type :=
| HttpSuccess (data : value)
| HttpFailure (response : value).

(** ** The provider *)

Section Provider.

(** The result of calling a user function with
    (query, permissions, route, routeParams). *)
Variable invoke : fn → value → value → Route.t → value → value.

Definition call (method query permissions : value) (route : Route.t)
    (routeParams : value) : M value :=
  match method with
  | VFun f => mret (invoke f query permissions route routeParams)
  | _ => throw TypeError
  end.

Definition getCurrentRoutePath : M string :=
  c ← gets current;
  match c with
  | Some c => mret (originalPath c)
  | None => throw TypeError
  end.

Definition routeExists (route : string) : M bool :=
  rs ← gets routes;
  mret (match rs !! route with Some _ => true | None => false end).

Definition getRoute (routePath : string) : M Route.t :=
  found ← routeExists routePath;
  if negb found then throw (CouldNotFindRoute routePath)
  else
    rs ← gets routes;
    match rs !! routePath with
    | Some r => mret r
    | None => throw (CouldNotFindRoute routePath)
    end.

(** [routePath || getCurrentRoutePath()] *)
Definition or_current (routePath : option string) : M string :=
  match routePath with
  | Some p => if truthy (VStr p) then mret p else getCurrentRoutePath
  | None => getCurrentRoutePath
  end.

Definition getPermissionsFromRoute (routePath : option string) : M value :=
  routePath ← or_current routePath;
  route ← getRoute routePath;
  dflt ← gets defaultPermissions;
  mret (js_or (Route.permissions route) dflt).

Definition getPermissionsSync (routePath : option string) : M value :=
  routePermissions ← getPermissionsFromRoute routePath;
  match routePermissions with
  | VStr url =>
      cache ← gets permissionsCache;
      mret (default VUndef (cache !! url))
  | _ => mret routePermissions
  end.

(** Issues the request; the promise settles when the transport answers. *)
Definition retrievePermissions (url : string) : M promise :=
  modify (set_requests (λ l, (l ++ [url])%list));;
  mret (AwaitingHttp url).

(** The [then] and [catch] handlers of [retrievePermissions]. *)
Definition retrievePermissions_settle (url : string) (reply : http_reply)
  : M settlement :=
  match reply with
  | HttpSuccess data =>
      modify (set_permissionsCache (λ c, <[url := data]> c));;
      mret (Resolved data)
  | HttpFailure response => mret (Rejected response)
  end.

Definition getPermissions (routePath : option string) : M promise :=
  routePermissions ← getPermissionsFromRoute routePath;
  permissions ← getPermissionsSync routePath;
  match routePermissions with
  | VStr url =>
      if is_undefined permissions then retrievePermissions url
      else mret (Settled (Resolved permissions))
  | _ => mret (Settled (Resolved permissions))
  end.

Definition setPermissions (permissions : value) (routePath : option string)
  : M unit :=
  routePath ← or_current routePath;
  route ← getRoute routePath;
  modify (set_routes (λ rs,
    <[routePath := Route.mk permissions (Route.customAuthorization route)
                            (Route.deniedRoute route)]> rs)).

Definition setDefaultPermissions (permissions : value) : M unit :=
  modify (set_defaultPermissions permissions).

Definition clearPermissionsCache : M unit :=
  modify (set_permissionsCache (λ _, ∅)).

Definition setCustomAuthorization (callbackFunction : value) : M unit :=
  modify (set_customAuthorization callbackFunction).

Definition hasCustomAuthorization : M bool :=
  f ← gets customAuthorization;
  mret (is_function f).

Definition getCustomAuthorization : M value :=
  has ← hasCustomAuthorization;
  if negb has then throw CustomAuthorizationNotAFunction
  else gets customAuthorization.

Definition hasCustomRouteAuthorization (routePath : string) : M bool :=
  route ← getRoute routePath;
  mret (truthy (VStr routePath) && is_function (Route.customAuthorization route)).

Definition getCustomRouteAuthorization (routePath : option string) : M value :=
  routePath ← or_current routePath;
  has ← hasCustomRouteAuthorization routePath;
  if negb has then throw (CustomRouteAuthorizationNotSet routePath)
  else
    route ← getRoute routePath;
    mret (Route.customAuthorization route).

Definition setDefaultAccess (allowOrDeny : value) : M unit :=
  modify (set_defaultAccess (truthy allowOrDeny)).

Definition getDefaultAccess : M bool := gets defaultAccess.

Definition getAccessDeniedRouteFor (routePath : option string) : M value :=
  routePath ← or_current routePath;
  route ← getRoute routePath;
  if truthy (Route.deniedRoute route) then mret (Route.deniedRoute route)
  else mret (VStr "/forbidden").

Definition setAccessDeniedRouteFor (deniedRoute : value)
    (routePath : option string) : M unit :=
  routePath ← or_current routePath;
  route ← getRoute routePath;
  rs ← gets routes;
  match rs !! Route.to_string route with
  | None => throw UnknownRouteForDeniedRoute
  | Some _ =>
      modify (set_routes (λ rs,
        <[routePath := Route.mk (Route.permissions route)
                                (Route.customAuthorization route)
                                deniedRoute]> rs))
  end.

(** [injects.$route.current.params] *)
Definition currentParams : M value :=
  c ← gets current;
  match c with
  | Some c => mret (params c)
  | None => throw TypeError
  end.

(** The [if ... else if] chain of [isAuthorized], once [route],
    [routeParams] and [permissions] are bound. *)
Definition isAuthorized_chain (query : value) (routePath : string)
    (route : Route.t) (routeParams permissions : value) : M bool :=
  byRoute ← hasCustomRouteAuthorization routePath;
  if byRoute : bool then
    method ← getCustomRouteAuthorization None;
    r ← call method query permissions route routeParams;
    mret (truthy r)
  else
    byGlobal ← hasCustomAuthorization;
    if byGlobal : bool then
      method ← getCustomAuthorization;
      r ← call method query permissions route routeParams;
      mret (truthy r)
    else
      match query, permissions return M bool with
      | VStr q, VArr xs => mret (negb (indexOf xs q =? -1))
      | VStr q, _ => lift (findIn q permissions None)
      | VFun _, _ =>
          r ← call query query permissions route routeParams;
          mret (truthy r)
      | _, _ => getDefaultAccess
      end.

Definition isAuthorized (query : value) (routePath : option string) : M bool :=
  routePath ← or_current routePath;
  route ← getRoute routePath;
  routeParams ← currentParams;
  sync ← getPermissionsSync (Some routePath);
  isAuthorized_chain query routePath route routeParams (js_or sync (VObj [])).

Definition redirect : M unit :=
  routePath ← getCurrentRoutePath;
  newRoute ← getAccessDeniedRouteFor (Some routePath);
  modify (set_navigation (λ l, (l ++ [SetPath newRoute; Replace])%list)).

(** The body shared by both callbacks of the pre-load promise; the result
    is the state of [deferred] afterwards.  [$q] runs a callback under a
    handler of its own: an exception raised in it never reaches
    [deferred], which then stays as it was. *)
Definition _authorizeOrRedirect (currentPath : string) : M deferred :=
  λ st,
    match isAuthorized (VStr currentPath) None st with
    | (Ok true, st1) => (Ok (Done (Resolved (VBool true))), st1)
    | (Ok false, st1) => (Ok (Done (Rejected (VBool false))), snd (redirect st1))
    | (Throw _, st1) => (Ok Pending, st1)
    end.

(** [reply] is the transport's answer to the request of the pre-load, if
    one is issued; the handlers of [retrievePermissions] run on it before
    those of [authorizeOrRedirect]. *)
Definition authorizeOrRedirect (reply : http_reply) : M deferred :=
  currentPath ← gets location_path;
  permissionsPromise ← getPermissions None;
  match permissionsPromise return M unit with
  | Settled _ => mret tt
  | AwaitingHttp url => retrievePermissions_settle url reply;; mret tt
  end;;
  _authorizeOrRedirect currentPath.

End Provider.

(** ** The matcher as the specification words it *)

Fixpoint mapping_key (kvs : list (string * value)) (key : string) : option value :=
  match kvs with
  | [] => None
  | (k, v) :: rest => if String.eqb k key then Some v else mapping_key rest key
  end.

(** A mapping advances through a key equal to the token, a sequence through
    a contained element equal to the token; anything else is "not found"
    ([None]). *)
Fixpoint matcher_descend (cursor : value) (tokens : list string) : option value :=
  match tokens with
  | [] => Some cursor
  | token :: rest =>
      match cursor with
      | VObj kvs =>
          match mapping_key kvs token with
          | Some v => matcher_descend v rest
          | None => None
          end
      | VArr xs =>
          if existsb (λ x, strict_equals_string x token) xs
          then matcher_descend (VStr token) rest
          else None
      | _ => None
      end
  end.

Definition matcher (query : string) (document : value) (delimiter : option string)
  : bool :=
  match matcher_descend document (split query (default "/" delimiter)) with
  | Some cursor => truthy cursor
  | None => false
  end.

(** ** Sample documents and states *)

(** The document of the matcher's unit test. *)
Definition sample_document : value :=
  VObj [("GET", VObj [("page", VArr [VNum 1; VNum 2; VNum 3]);
                      ("other", VArr [VNum 1; VStr "a/b"])]);
        ("PUT", VObj [("page", VArr [VNum 1])])].

Definition no_callbacks : fn → value → value → Route.t → value → value :=
  λ _ _ _ _ _, VUndef.

(** A single current route ["/"] with the given static permissions. *)
Definition single_route (permissions : value) (path : string) : state :=
  fresh {[ "/" := Route.mk permissions VUndef VUndef ]}
        (Some {| originalPath := "/"; params := VObj [] |}) path.

(** A route whose permissions are a document with a [null] entry, and a
    location below that entry. *)
Definition null_entry_route : state :=
  single_route (VObj [("", VObj [("users", VNull)])]) "/users/7".

(** Two routes, one of them registered under the string that a route
    descriptor converts to. *)
Definition odd_table : state :=
  fresh (<["/a" := Route.mk VUndef VUndef VUndef]>
           {["[object Object]" := Route.mk VUndef VUndef VUndef]})
        (Some {| originalPath := "/a"; params := VObj [] |}) "/a".

(** The route [""] beside the current route ["/b"], each with permissions
    of its own. *)
Definition empty_path_table : state :=
  fresh (<["" := Route.mk (VArr [VStr "/x"]) VUndef VUndef]>
           {["/b" := Route.mk (VArr [VStr "/y"]) VUndef VUndef]})
        (Some {| originalPath := "/b"; params := VObj [] |}) "/b".

(** A route that names its permissions by URL, nothing cached yet. *)
Definition url_route (url : string) : state :=
  single_route (VStr url) "/".

(** The state once the pre-load of [authorizeOrRedirect] has settled, for
    the current route [route]. *)
Definition after_preload (reply : http_reply) (route : Route.t) (st : state)
  : state :=
  match js_or (Route.permissions route) (defaultPermissions st) with
  | VStr url =>
      match permissionsCache st !! url with
      | Some VUndef | None =>
          let st1 := set_requests (λ l, (l ++ [url])%list) st in
          match reply with
          | HttpSuccess data => set_permissionsCache (λ c, <[url := data]> c) st1
          | HttpFailure _ => st1
          end
      | Some _ => st
      end
  | _ => st
  end.

(** Calls made one after the other. *)
Fixpoint in_turn {A} (calls : list (M A)) : M (list A) :=
  match calls with
  | [] => mret []
  | m :: rest => a ← m; l ← in_turn rest; mret (a :: l)
  end.

(** What [getPermissionsSync] yields for a known route. *)
Definition sync_permissions (route : Route.t) (st : state) : value :=
  match js_or (Route.permissions route) (defaultPermissions st) with
  | VStr url => default VUndef (permissionsCache st !! url)
  | v => v
  end.

(** Route ["/a"] carries the override strategy [Fn 0]; the current route is
    ["/b"], with [customAuthorization] as given. *)
Definition two_routes (customAuthorization_b : value) : state :=
  fresh (<["/a" := Route.mk VUndef (VFun (Fn 0)) VUndef]>
           {["/b" := Route.mk VUndef customAuthorization_b VUndef]})
        (Some {| originalPath := "/b"; params := VObj [] |}) "/b".

(** An operation that leaves the state as it found it. *)
Definition readonly {A} (m : M A) : Prop := ∀ st, snd (m st) = st.

(** The names under which a plain object finds a member it inherits from
    [Object.prototype], in current and in older engines.  The route table
    is such an object: the read [routes[name]] of one of these names finds
    the inherited member when no route is registered under it.  The finite
    map [routes] holds the registered routes only. *)
Definition object_prototype_member (name : string) : bool :=
  existsb (String.eqb name)
    ["constructor"; "hasOwnProperty"; "isPrototypeOf"; "propertyIsEnumerable";
     "toLocaleString"; "toString"; "valueOf"; "__proto__";
     "__defineGetter__"; "__defineSetter__"; "__lookupGetter__";
     "__lookupSetter__"; "toSource"; "watch"; "unwatch";
     "__noSuchMethod__"; "__count__"; "__parent__"; "eval"].

(** The separator occurs nowhere in the string. *)
Fixpoint no_separator (sep s : string) : bool :=
  match s with
  | EmptyString => true
  | String _ s' => negb (String.prefix sep s) && no_separator sep s'
  end.

(** * Properties *)

(** ** The matcher *)

Lemma strict_equals_string_iff x token :
  strict_equals_string x token = true ↔ x = VStr token.
Proof.
  destruct x; simpl; try (split; [discriminate | congruence]).
  rewrite String.eqb_eq. split; congruence.
Qed.

Lemma indexOf_from_absent xs token i :
  indexOf_from i xs token = -1 → 0 ≤ i → ¬ In (VStr token) xs.
Proof.
  revert i. induction xs as [|x xs IH]; simpl; intros i Hr Hi; [tauto|].
  destruct (strict_equals_string x token) eqn:E; [lia|].
  intros [->|Hin].
  - simpl in E. rewrite String.eqb_refl in E. discriminate.
  - eapply IH; [exact Hr | lia | exact Hin].
Qed.

Lemma indexOf_from_found xs token i :
  indexOf_from i xs token ≠ -1 → 0 ≤ i →
  i ≤ indexOf_from i xs token < i + Z.of_nat (length xs) ∧
  nth (Z.to_nat (indexOf_from i xs token - i)) xs VUndef = VStr token.
Proof.
  revert i. induction xs as [|x xs IH]; simpl; intros i Hr Hi; [congruence|].
  destruct (strict_equals_string x token) eqn:E.
  - apply strict_equals_string_iff in E. subst x.
    split; [lia|]. by rewrite Z.sub_diag.
  - destruct (IH (i + 1) Hr ltac:(lia)) as [Hb Hn]. split; [lia|].
    replace (Z.to_nat (indexOf_from (i + 1) xs token - i))
      with (S (Z.to_nat (indexOf_from (i + 1) xs token - (i + 1)))) by lia.
    exact Hn.
Qed.

Lemma indexOf_absent xs token :
  indexOf xs token = -1 ↔ ¬ In (VStr token) xs.
Proof.
  split.
  - intros H. by eapply indexOf_from_absent.
  - intros Hnot. destruct (Z.eq_dec (indexOf xs token) (-1)) as [|Hne]; [done|].
    destruct (indexOf_from_found xs token 0 Hne ltac:(lia)) as [Hb Hn].
    exfalso. apply Hnot. rewrite <- Hn. apply nth_In.
    unfold indexOf in *. lia.
Qed.

Lemma indexOf_present xs token :
  indexOf xs token ≠ -1 → In (VStr token) xs.
Proof.
  intros Hne. destruct (indexOf_from_found xs token 0 Hne ltac:(lia)) as [Hb Hn].
  rewrite <- Hn. apply nth_In. unfold indexOf in *. lia.
Qed.

Lemma indexOf_element xs token :
  indexOf xs token ≠ -1 → element xs (Z.to_N (indexOf xs token)) = VStr token.
Proof.
  intros Hne. destruct (indexOf_from_found xs token 0 Hne ltac:(lia)) as [Hb Hn].
  unfold indexOf in *. unfold element.
  destruct (N.ltb_spec (Z.to_N (indexOf_from 0 xs token)) (N.of_nat (length xs)));
    [|lia].
  rewrite <- Hn. f_equal. lia.
Qed.

Lemma is_undefined_false p : p ≠ VUndef → is_undefined p = false.
Proof. by destruct p. Qed.

(** C2 at its failing input.  On the document of the unit test the query
    ["GET/page/0"] reaches the sequence [1, 2, 3] with the token ["0"],
    which is no element of it, and ["GET/page/length"] reaches it with the
    token ["length"]: the matcher that the claim describes finds nothing
    and answers [false] both times; [findIn] reads the property of that
    name from the sequence, the element at index 0 and the length 3, and
    answers [true]. *)
Theorem findIn_reads_properties_of_sequence :
  matcher "GET/page/0" sample_document None = false ∧
  findIn "GET/page/0" sample_document None = Ok true ∧
  matcher "GET/page/length" sample_document None = false ∧
  findIn "GET/page/length" sample_document None = Ok true.
Proof. repeat split; reflexivity. Qed.

(** C8.  The five results of the matcher's unit test. *)
Theorem findIn_sample_document :
  findIn "GET/page/1" sample_document None = Ok true ∧
  findIn "GET/page/4" sample_document None = Ok false ∧
  findIn "PUT/page" sample_document None = Ok true ∧
  findIn "GET#other#a/b" sample_document (Some "#") = Ok true ∧
  findIn "GET#page/1" sample_document (Some "#") = Ok false.
Proof. repeat split; reflexivity. Qed.

(** ** Running the provider's operations *)

Lemma bind_run {A B} (m : M A) (f : A → M B) st :
  (m ≫= f) st =
  match m st with
  | (Ok a, st') => f a st'
  | (Throw e, st') => (Throw e, st')
  end.
Proof. reflexivity. Qed.

Lemma getCurrentRoutePath_run st :
  getCurrentRoutePath st =
  (match current st with
   | Some c => Ok (originalPath c)
   | None => Throw TypeError
   end, st).
Proof. unfold getCurrentRoutePath. rewrite bind_run. simpl. by destruct (current st). Qed.

Lemma currentParams_run st :
  currentParams st =
  (match current st with
   | Some c => Ok (params c)
   | None => Throw TypeError
   end, st).
Proof. unfold currentParams. rewrite bind_run. simpl. by destruct (current st). Qed.

Lemma getRoute_run routePath st :
  getRoute routePath st =
  (match routes st !! routePath with
   | Some r => Ok r
   | None => Throw (CouldNotFindRoute routePath)
   end, st).
Proof.
  unfold getRoute, routeExists, mbind, M_bind, gets. simpl.
  destruct (routes st !! routePath) eqn:E; simpl; [by rewrite E|done].
Qed.

Lemma or_current_given p st : p ≠ "" → or_current (Some p) st = (Ok p, st).
Proof.
  intros Hp. unfold or_current. simpl.
  destruct (String.eqb_spec p ""); [done|reflexivity].
Qed.

Lemma or_current_empty st : or_current (Some "") st = or_current None st.
Proof. reflexivity. Qed.

Lemma or_current_state routePath st : snd (or_current routePath st) = st.
Proof.
  unfold or_current. destruct routePath as [p|]; [destruct (truthy (VStr p))|];
    try reflexivity; by rewrite getCurrentRoutePath_run.
Qed.

Lemma or_current_result routePath st p :
  fst (or_current routePath st) = Ok p → or_current routePath st = (Ok p, st).
Proof.
  intros H. pose proof (or_current_state routePath st) as Hs.
  destruct (or_current routePath st) as [r st']. simpl in *. congruence.
Qed.

(** Whatever [routePath || getCurrentRoutePath()] evaluates to, evaluating
    the same expression on that result gives it back. *)
Lemma or_current_again routePath st p :
  fst (or_current routePath st) = Ok p → or_current (Some p) st = (Ok p, st).
Proof.
  destruct (String.eqb_spec p "") as [->|Hp]; [|intros _; by apply or_current_given].
  rewrite or_current_empty. destruct routePath as [q|].
  - destruct (String.eqb_spec q "") as [->|Hq].
    + rewrite or_current_empty. apply or_current_result.
    + rewrite (or_current_given _ _ Hq). simpl. congruence.
  - apply or_current_result.
Qed.

(** The expression only looks at [$route.current]. *)
Lemma or_current_same_current routePath st st' :
  current st' = current st →
  fst (or_current routePath st') = fst (or_current routePath st).
Proof.
  intros Hc. unfold or_current.
  destruct routePath as [q|]; [destruct (truthy (VStr q)); [done|]|];
    rewrite !getCurrentRoutePath_run; simpl; by rewrite Hc.
Qed.

Lemma getPermissionsFromRoute_run routePath st p :
  fst (or_current routePath st) = Ok p →
  getPermissionsFromRoute routePath st =
  (match routes st !! p with
   | Some r => Ok (js_or (Route.permissions r) (defaultPermissions st))
   | None => Throw (CouldNotFindRoute p)
   end, st).
Proof.
  intros H. unfold getPermissionsFromRoute.
  rewrite bind_run, (or_current_result _ _ _ H), bind_run, getRoute_run.
  by destruct (routes st !! p).
Qed.

Lemma getPermissionsSync_run routePath st p :
  fst (or_current routePath st) = Ok p →
  getPermissionsSync routePath st =
  (match routes st !! p with
   | Some r =>
       Ok (match js_or (Route.permissions r) (defaultPermissions st) with
           | VStr url => default VUndef (permissionsCache st !! url)
           | v => v
           end)
   | None => Throw (CouldNotFindRoute p)
   end, st).
Proof.
  intros H. unfold getPermissionsSync.
  rewrite bind_run, (getPermissionsFromRoute_run _ _ _ H).
  destruct (routes st !! p) as [r|]; [|done].
  by destruct (js_or _ _).
Qed.

Lemma getPermissions_run routePath st p :
  fst (or_current routePath st) = Ok p →
  getPermissions routePath st =
  match routes st !! p with
  | Some r =>
      match js_or (Route.permissions r) (defaultPermissions st) with
      | VStr url =>
          match permissionsCache st !! url with
          | Some VUndef | None =>
              (Ok (AwaitingHttp url), set_requests (λ l, (l ++ [url])%list) st)
          | Some v => (Ok (Settled (Resolved v)), st)
          end
      | v => (Ok (Settled (Resolved v)), st)
      end
  | None => (Throw (CouldNotFindRoute p), st)
  end.
Proof.
  intros H. unfold getPermissions.
  rewrite bind_run, (getPermissionsFromRoute_run _ _ _ H).
  destruct (routes st !! p) as [r|] eqn:Hr; [|done].
  rewrite bind_run, (getPermissionsSync_run _ _ _ H), Hr.
  destruct (js_or _ _); try done.
  destruct (permissionsCache st !! s) as [[]|]; done.
Qed.

Lemma hasCustomRouteAuthorization_run routePath st :
  hasCustomRouteAuthorization routePath st =
  (match routes st !! routePath with
   | Some r => Ok (truthy (VStr routePath) && is_function (Route.customAuthorization r))
   | None => Throw (CouldNotFindRoute routePath)
   end, st).
Proof.
  unfold hasCustomRouteAuthorization. rewrite bind_run, getRoute_run.
  by destruct (routes st !! routePath).
Qed.

Lemma getCustomRouteAuthorization_run routePath st p :
  fst (or_current routePath st) = Ok p →
  getCustomRouteAuthorization routePath st =
  (match routes st !! p with
   | Some r =>
       if truthy (VStr p) && is_function (Route.customAuthorization r)
       then Ok (Route.customAuthorization r)
       else Throw (CustomRouteAuthorizationNotSet p)
   | None => Throw (CouldNotFindRoute p)
   end, st).
Proof.
  intros H. unfold getCustomRouteAuthorization.
  rewrite bind_run, (or_current_result _ _ _ H), bind_run,
    hasCustomRouteAuthorization_run.
  destruct (routes st !! p) as [r|] eqn:Hr; [|done].
  destruct (_ && _); simpl; [|done].
  by rewrite bind_run, getRoute_run, Hr.
Qed.

Lemma getAccessDeniedRouteFor_run routePath st p :
  fst (or_current routePath st) = Ok p →
  getAccessDeniedRouteFor routePath st =
  (match routes st !! p with
   | Some r => Ok (js_or (Route.deniedRoute r) (VStr "/forbidden"))
   | None => Throw (CouldNotFindRoute p)
   end, st).
Proof.
  intros H. unfold getAccessDeniedRouteFor.
  rewrite bind_run, (or_current_result _ _ _ H), bind_run, getRoute_run.
  destruct (routes st !! p) as [r|]; [|done].
  unfold js_or. by destruct (truthy _).
Qed.

(** ** Operations that only read the state *)

Lemma readonly_ret {A} (a : A) : readonly (mret a).
Proof. by intros st. Qed.

Lemma readonly_throw {A} e : readonly (@throw A e).
Proof. by intros st. Qed.

Lemma readonly_gets {A} (f : state → A) : readonly (gets f).
Proof. by intros st. Qed.

Lemma readonly_lift {A} (r : result A) : readonly (lift r).
Proof. by intros st. Qed.

Lemma readonly_bind {A B} (m : M A) (f : A → M B) :
  readonly m → (∀ a, readonly (f a)) → readonly (m ≫= f).
Proof.
  intros Hm Hf st. rewrite bind_run. specialize (Hm st).
  destruct (m st) as [[a|e] st']; simpl in *; subst; [apply Hf|done].
Qed.

Create HintDb readonly.
#[local] Hint Resolve readonly_ret readonly_throw readonly_gets readonly_lift : readonly.

Ltac readonly_step :=
  first [ apply readonly_bind; [|intros ?]
        | apply readonly_ret | apply readonly_throw
        | apply readonly_gets | apply readonly_lift
        | match goal with |- readonly (match ?x with _ => _ end) => destruct x end
        | match goal with |- readonly (if ?x then _ else _) => destruct x end
        | assumption ].

Lemma readonly_getCurrentRoutePath : readonly getCurrentRoutePath.
Proof. unfold getCurrentRoutePath. repeat readonly_step. Qed.

Lemma readonly_currentParams : readonly currentParams.
Proof. unfold currentParams. repeat readonly_step. Qed.

Lemma readonly_or_current routePath : readonly (or_current routePath).
Proof. intros st. apply or_current_state. Qed.

Lemma readonly_getRoute routePath : readonly (getRoute routePath).
Proof. intros st. by rewrite getRoute_run. Qed.

#[local] Hint Resolve readonly_getCurrentRoutePath readonly_currentParams
  readonly_or_current readonly_getRoute : readonly.

Lemma readonly_getPermissionsFromRoute routePath :
  readonly (getPermissionsFromRoute routePath).
Proof. unfold getPermissionsFromRoute. repeat (readonly_step || auto with readonly). Qed.

#[local] Hint Resolve readonly_getPermissionsFromRoute : readonly.

Lemma readonly_getPermissionsSync routePath :
  readonly (getPermissionsSync routePath).
Proof. unfold getPermissionsSync. repeat (readonly_step || auto with readonly). Qed.

Lemma readonly_hasCustomAuthorization : readonly hasCustomAuthorization.
Proof. unfold hasCustomAuthorization. repeat readonly_step. Qed.

Lemma readonly_hasCustomRouteAuthorization routePath :
  readonly (hasCustomRouteAuthorization routePath).
Proof.
  unfold hasCustomRouteAuthorization. repeat (readonly_step || auto with readonly).
Qed.

#[local] Hint Resolve readonly_getPermissionsSync readonly_hasCustomAuthorization
  readonly_hasCustomRouteAuthorization : readonly.

Lemma readonly_getCustomAuthorization : readonly getCustomAuthorization.
Proof. unfold getCustomAuthorization. repeat (readonly_step || auto with readonly). Qed.

Lemma readonly_getCustomRouteAuthorization routePath :
  readonly (getCustomRouteAuthorization routePath).
Proof.
  unfold getCustomRouteAuthorization. repeat (readonly_step || auto with readonly).
Qed.

Lemma readonly_call invoke method query permissions route routeParams :
  readonly (call invoke method query permissions route routeParams).
Proof. unfold call. destruct method; auto with readonly. Qed.

#[local] Hint Resolve readonly_getCustomAuthorization
  readonly_getCustomRouteAuthorization readonly_call : readonly.

Lemma readonly_isAuthorized_chain invoke query routePath route routeParams permissions :
  readonly (isAuthorized_chain invoke query routePath route routeParams permissions).
Proof.
  unfold isAuthorized_chain, getDefaultAccess.
  repeat (readonly_step || auto with readonly).
Qed.

Lemma readonly_isAuthorized invoke query routePath :
  readonly (isAuthorized invoke query routePath).
Proof.
  unfold isAuthorized.
  do 4 (apply readonly_bind; [auto with readonly|intros ?]).
  apply readonly_isAuthorized_chain.
Qed.

(** ** The decision chain *)

Lemma getPermissionsSync_known routePath st p route :
  fst (or_current routePath st) = Ok p →
  routes st !! p = Some route →
  getPermissionsSync routePath st = (Ok (sync_permissions route st), st).
Proof. intros H Hr. by rewrite (getPermissionsSync_run _ _ _ H), Hr. Qed.

Lemma js_or_empty_mapping sync :
  js_or sync (VObj []) ≠ VNull ∧ js_or sync (VObj []) ≠ VUndef ∧
  (truthy sync = false → js_or sync (VObj []) = VObj []).
Proof.
  unfold js_or. destruct (truthy sync) eqn:E; [|done].
  destruct sync; simpl in E; done.
Qed.

Lemma isAuthorized_run invoke query routePath st p route c :
  fst (or_current routePath st) = Ok p →
  routes st !! p = Some route →
  current st = Some c →
  isAuthorized invoke query routePath st =
  isAuthorized_chain invoke query p route (params c)
    (js_or (sync_permissions route st) (VObj [])) st.
Proof.
  intros H Hr Hc. unfold isAuthorized.
  rewrite bind_run, (or_current_result _ _ _ H), bind_run, getRoute_run, Hr.
  rewrite bind_run, currentParams_run, Hc, bind_run.
  by rewrite (getPermissionsSync_known (Some p) st p route
                (f_equal fst (or_current_again _ _ _ H)) Hr).
Qed.

(** Steps 3 to 6: neither override strategy applies. *)
Lemma isAuthorized_chain_structural invoke query p route routeParams permissions st :
  routes st !! p = Some route →
  truthy (VStr p) && is_function (Route.customAuthorization route) = false →
  is_function (customAuthorization st) = false →
  isAuthorized_chain invoke query p route routeParams permissions st =
  (match query, permissions with
   | VStr q, VArr xs => Ok (negb (indexOf xs q =? -1))
   | VStr q, _ => findIn q permissions None
   | VFun f, _ => Ok (truthy (invoke f query permissions route routeParams))
   | _, _ => Ok (defaultAccess st)
   end, st).
Proof.
  intros Hr Hroute Hglobal. unfold isAuthorized_chain.
  rewrite bind_run, hasCustomRouteAuthorization_run, Hr, Hroute.
  rewrite bind_run. unfold hasCustomAuthorization at 1.
  rewrite bind_run. simpl. rewrite Hglobal.
  destruct query; try reflexivity; destruct permissions; reflexivity.
Qed.

(** Step 2: the global override strategy, when the route has none. *)
Lemma isAuthorized_chain_global invoke query p route routeParams permissions st f :
  routes st !! p = Some route →
  truthy (VStr p) && is_function (Route.customAuthorization route) = false →
  customAuthorization st = VFun f →
  isAuthorized_chain invoke query p route routeParams permissions st =
  (Ok (truthy (invoke f query permissions route routeParams)), st).
Proof.
  intros Hr Hroute Hglobal. unfold isAuthorized_chain.
  rewrite bind_run, hasCustomRouteAuthorization_run, Hr, Hroute.
  rewrite bind_run. unfold hasCustomAuthorization at 1.
  rewrite bind_run. simpl. rewrite Hglobal. simpl.
  unfold getCustomAuthorization, hasCustomAuthorization.
  rewrite !bind_run. simpl. rewrite Hglobal. simpl. by rewrite Hglobal.
Qed.

(** Step 1: the strategy is fetched by [getCustomRouteAuthorization()],
    called without the route path, hence from the current route. *)
Lemma isAuthorized_chain_route invoke query p route routeParams permissions st :
  routes st !! p = Some route →
  truthy (VStr p) && is_function (Route.customAuthorization route) = true →
  isAuthorized_chain invoke query p route routeParams permissions st =
  match getCustomRouteAuthorization None st with
  | (Ok (VFun f), _) =>
      (Ok (truthy (invoke f query permissions route routeParams)), st)
  | (Ok _, _) => (Throw TypeError, st)
  | (Throw e, _) => (Throw e, st)
  end.
Proof.
  intros Hr Hroute. unfold isAuthorized_chain.
  rewrite bind_run, hasCustomRouteAuthorization_run, Hr, Hroute, bind_run.
  pose proof (readonly_getCustomRouteAuthorization None st) as Hs.
  destruct (getCustomRouteAuthorization None st) as [[method|e] st']; simpl in Hs;
    subst st'; [|done].
  by destruct method.
Qed.

(** C7.  [isAuthorized] leaves the whole state as it found it: the cache,
    the default permissions, the global override, the default access and
    the list of requests issued.  The permissions it decides on are what
    [getPermissionsSync] yields, itself without touching the state, with
    [{}] in place of a falsy result; they are never [null] or
    [undefined]. *)
Theorem isAuthorized_reads_only invoke query routePath st :
  snd (isAuthorized invoke query routePath st) = st ∧
  ∀ b, fst (isAuthorized invoke query routePath st) = Ok b →
    ∃ p route routeParams sync,
      or_current routePath st = (Ok p, st) ∧
      routes st !! p = Some route ∧
      getPermissionsSync (Some p) st = (Ok sync, st) ∧
      js_or sync (VObj []) ≠ VNull ∧
      js_or sync (VObj []) ≠ VUndef ∧
      (truthy sync = false → js_or sync (VObj []) = VObj []) ∧
      fst (isAuthorized_chain invoke query p route routeParams
             (js_or sync (VObj [])) st) = Ok b.
Proof.
  split; [apply readonly_isAuthorized|].
  intros b. unfold isAuthorized. rewrite bind_run.
  destruct (or_current routePath st) as [[p|e] st1] eqn:E1; [|discriminate].
  pose proof (or_current_state routePath st) as Hs. rewrite E1 in Hs.
  simpl in Hs. subst st1.
  rewrite bind_run, getRoute_run.
  destruct (routes st !! p) as [route|] eqn:Hr; [|discriminate].
  rewrite bind_run, currentParams_run.
  destruct (current st) as [c|]; [|discriminate].
  rewrite bind_run.
  pose proof (readonly_getPermissionsSync (Some p) st) as Hs.
  destruct (getPermissionsSync (Some p) st) as [[sync|e] st2] eqn:E2; simpl in Hs;
    subst st2; [|discriminate].
  intros Hb. exists p, route, (params c), sync.
  destruct (js_or_empty_mapping sync) as (? & ? & ?). done.
Qed.

Lemma isAuthorized_without_override invoke query routePath st p route c :
  fst (or_current routePath st) = Ok p →
  routes st !! p = Some route →
  current st = Some c →
  is_function (Route.customAuthorization route) = false →
  is_function (customAuthorization st) = false →
  isAuthorized invoke query routePath st =
  (let permissions := js_or (sync_permissions route st) (VObj []) in
   match query, permissions with
   | VStr q, VArr xs => Ok (negb (indexOf xs q =? -1))
   | VStr q, _ => findIn q permissions None
   | VFun f, _ => Ok (truthy (invoke f query permissions route (params c)))
   | _, _ => Ok (defaultAccess st)
   end, st).
Proof.
  intros H Hr Hc Hroute Hglobal.
  rewrite (isAuthorized_run _ _ _ _ _ _ _ H Hr Hc).
  apply isAuthorized_chain_structural; [done| |done].
  rewrite Hroute. apply andb_false_r.
Qed.

(** C6.  With a query that is neither a string nor a function (an absent
    one in particular) and no override strategy, on the route or global,
    [isAuthorized] returns the default access; that is [false] in a fresh
    provider; after [setDefaultAccess(v)] the same call returns the
    truthiness of [v], and neither the cache nor the list of requests has
    changed. *)
Theorem isAuthorized_default_access invoke query routePath st p route c :
  fst (or_current routePath st) = Ok p →
  routes st !! p = Some route →
  current st = Some c →
  is_function (Route.customAuthorization route) = false →
  is_function (customAuthorization st) = false →
  (∀ q, query ≠ VStr q) →
  (∀ f, query ≠ VFun f) →
  isAuthorized invoke query routePath st = (Ok (defaultAccess st), st) ∧
  (∀ allowOrDeny,
     let st' := snd (setDefaultAccess allowOrDeny st) in
     isAuthorized invoke query routePath st' = (Ok (truthy allowOrDeny), st') ∧
     permissionsCache st' = permissionsCache st ∧
     requests st' = requests st) ∧
  (∀ rs cur path, defaultAccess (fresh rs cur path) = false).
Proof.
  intros H Hr Hc Hroute Hglobal Hstr Hfun.
  assert (∀ st', fst (or_current routePath st') = Ok p →
                 routes st' !! p = Some route → current st' = Some c →
                 customAuthorization st' = customAuthorization st →
                 isAuthorized invoke query routePath st' = (Ok (defaultAccess st'), st'))
    as Hany.
  { intros st' H' Hr' Hc' Hg'.
    rewrite (isAuthorized_without_override _ _ _ _ _ _ _ H' Hr' Hc' Hroute);
      [|by rewrite Hg'].
    simpl. destruct query; try reflexivity; [by destruct (Hstr s)|by destruct (Hfun f)]. }
  split; [by apply Hany|]. split; [|done].
  intros allowOrDeny st'. subst st'. simpl. split; [|done].
  apply (Hany (set_defaultAccess (truthy allowOrDeny) st)); try done.
  by rewrite (or_current_same_current _ st).
Qed.

Lemma isAuthorized_default_access_witness :
  isAuthorized no_callbacks VUndef None (single_route VUndef "/") =
    (Ok (defaultAccess (single_route VUndef "/")), single_route VUndef "/") ∧
  (∀ allowOrDeny,
     let st' := snd (setDefaultAccess allowOrDeny (single_route VUndef "/")) in
     isAuthorized no_callbacks VUndef None st' = (Ok (truthy allowOrDeny), st') ∧
     permissionsCache st' = permissionsCache (single_route VUndef "/") ∧
     requests st' = requests (single_route VUndef "/")) ∧
  (∀ rs cur path, defaultAccess (fresh rs cur path) = false).
Proof.
  apply (isAuthorized_default_access no_callbacks VUndef None
           (single_route VUndef "/") "/" (Route.mk VUndef VUndef VUndef)
           {| originalPath := "/"; params := VObj [] |});
    [reflexivity | reflexivity | reflexivity | reflexivity | reflexivity
    | discriminate | discriminate].
Defined.

(** ** The override of a route that is not the current one *)

Lemma isAuthorized_route_override invoke query routePath st p route c f :
  fst (or_current routePath st) = Ok p →
  routes st !! p = Some route →
  current st = Some c →
  originalPath c = p →
  p ≠ "" →
  Route.customAuthorization route = VFun f →
  isAuthorized invoke query routePath st =
  (Ok (truthy (invoke f query (js_or (sync_permissions route st) (VObj []))
                 route (params c))), st).
Proof.
  intros H Hr Hc Hp Hne Hf.
  assert (truthy (VStr p) && is_function (Route.customAuthorization route) = true)
    as Hhas.
  { rewrite Hf. simpl. by destruct (String.eqb_spec p ""). }
  rewrite (isAuthorized_run _ _ _ _ _ _ _ H Hr Hc).
  rewrite (isAuthorized_chain_route _ _ _ _ _ _ _ Hr Hhas).
  rewrite (getCustomRouteAuthorization_run None st p).
  - by rewrite Hr, Hhas, Hf.
  - simpl. rewrite getCurrentRoutePath_run, Hc. simpl. by rewrite Hp.
Qed.

Lemma isAuthorized_route_override_elsewhere invoke query st p route c route_c :
  p ≠ "" →
  routes st !! p = Some route →
  is_function (Route.customAuthorization route) = true →
  current st = Some c →
  routes st !! originalPath c = Some route_c →
  is_function (Route.customAuthorization route_c) = false →
  isAuthorized invoke query (Some p) st =
  (Throw (CustomRouteAuthorizationNotSet (originalPath c)), st).
Proof.
  intros Hne Hr Hf Hc Hrc Hfc.
  assert (truthy (VStr p) && is_function (Route.customAuthorization route) = true)
    as Hhas.
  { rewrite Hf. simpl. by destruct (String.eqb_spec p ""). }
  pose proof (f_equal fst (or_current_given p st Hne)) as H.
  rewrite (isAuthorized_run _ _ _ _ _ _ _ H Hr Hc).
  rewrite (isAuthorized_chain_route _ _ _ _ _ _ _ Hr Hhas).
  rewrite (getCustomRouteAuthorization_run None st (originalPath c)).
  - by rewrite Hrc, Hfc, andb_false_r.
  - simpl. by rewrite getCurrentRoutePath_run, Hc.
Qed.

(** C1 at its failing input.  Route ["/a"] has an override strategy and
    [hasCustomRouteAuthorization("/a")] says so, yet
    [isAuthorized(query, "/a")], called while ["/b"] is the current route,
    does not invoke it: without a strategy on ["/b"] the call throws, and
    with one on ["/b"] it is that strategy of ["/b"] that decides. *)
Theorem isAuthorized_override_of_other_route invoke query :
  hasCustomRouteAuthorization "/a" (two_routes VUndef) =
    (Ok true, two_routes VUndef) ∧
  isAuthorized invoke query (Some "/a") (two_routes VUndef) =
    (Throw (CustomRouteAuthorizationNotSet "/b"), two_routes VUndef) ∧
  isAuthorized invoke query (Some "/a") (two_routes (VFun (Fn 1))) =
    (Ok (truthy (invoke (Fn 1) query (VObj [])
                   (Route.mk VUndef (VFun (Fn 0)) VUndef) (VObj []))),
     two_routes (VFun (Fn 1))).
Proof. repeat split; reflexivity. Qed.

(** C5 at its failing input.  Membership in the sequence ["/a", "/b"] is
    decided as claimed, and so is ["canEdit/5"]; but on [{canEdit: [1, 2]}]
    the query ["canEdit/2"] is denied: the token ["2"] is no index of a
    sequence of two elements, and as a string it is identical to none of
    the numbers in it.  On [{canEdit: [1, 2, 3]}] the same query is allowed,
    through the element at index 2. *)
Theorem isAuthorized_sequence_or_mapping invoke :
  fst (isAuthorized invoke (VStr "/a") None
         (single_route (VArr [VStr "/a"; VStr "/b"]) "/")) = Ok true ∧
  fst (isAuthorized invoke (VStr "/c") None
         (single_route (VArr [VStr "/a"; VStr "/b"]) "/")) = Ok false ∧
  fst (isAuthorized invoke (VStr "canEdit/2") None
         (single_route (VObj [("canEdit", VArr [VNum 1; VNum 2])]) "/")) = Ok false ∧
  fst (isAuthorized invoke (VStr "canEdit/5") None
         (single_route (VObj [("canEdit", VArr [VNum 1; VNum 2])]) "/")) = Ok false ∧
  fst (isAuthorized invoke (VStr "canEdit/2") None
         (single_route (VObj [("canEdit", VArr [VNum 1; VNum 2; VNum 3])]) "/")) = Ok true.
Proof. repeat split; reflexivity. Qed.

(** ** The navigation gate *)

Lemma redirect_run st c route :
  current st = Some c →
  routes st !! originalPath c = Some route →
  redirect st =
  (Ok tt,
   set_navigation
     (λ l, (l ++ [SetPath (js_or (Route.deniedRoute route) (VStr "/forbidden"));
                  Replace])%list) st).
Proof.
  intros Hc Hr. unfold redirect.
  rewrite bind_run, getCurrentRoutePath_run, Hc, bind_run.
  rewrite (getAccessDeniedRouteFor_run _ st (originalPath c)), Hr; [done|].
  destruct (String.eqb_spec (originalPath c) "") as [E|E].
  - rewrite E, or_current_empty. simpl. by rewrite getCurrentRoutePath_run, Hc, E.
  - by rewrite or_current_given.
Qed.

Lemma _authorizeOrRedirect_run invoke currentPath st c route :
  current st = Some c →
  routes st !! originalPath c = Some route →
  _authorizeOrRedirect invoke currentPath st =
  match fst (isAuthorized invoke (VStr currentPath) None st) with
  | Ok true => (Ok (Done (Resolved (VBool true))), st)
  | Ok false =>
      (Ok (Done (Rejected (VBool false))),
       set_navigation
         (λ l, (l ++ [SetPath (js_or (Route.deniedRoute route) (VStr "/forbidden"));
                      Replace])%list) st)
  | Throw _ => (Ok Pending, st)
  end.
Proof.
  intros Hc Hr. unfold _authorizeOrRedirect.
  pose proof (readonly_isAuthorized invoke (VStr currentPath) None st) as Hs.
  destruct (isAuthorized invoke (VStr currentPath) None st) as [[[]|e] st'];
    simpl in *; subst st'; try done.
  by rewrite (redirect_run _ _ _ Hc Hr).
Qed.

Lemma authorizeOrRedirect_run invoke reply st c route :
  current st = Some c →
  routes st !! originalPath c = Some route →
  authorizeOrRedirect invoke reply st =
  _authorizeOrRedirect invoke (location_path st) (after_preload reply route st).
Proof.
  intros Hc Hr. unfold authorizeOrRedirect, after_preload.
  rewrite bind_run. simpl. rewrite bind_run.
  rewrite (getPermissions_run None st (originalPath c)), Hr;
    [|simpl; by rewrite getCurrentRoutePath_run, Hc].
  destruct (js_or _ _); try reflexivity.
  destruct (permissionsCache st !! s) as [[]|]; try reflexivity;
    destruct reply; reflexivity.
Qed.

Lemma after_preload_routes reply route st :
  routes (after_preload reply route st) = routes st ∧
  current (after_preload reply route st) = current st ∧
  location_path (after_preload reply route st) = location_path st ∧
  navigation (after_preload reply route st) = navigation st ∧
  defaultPermissions (after_preload reply route st) = defaultPermissions st ∧
  customAuthorization (after_preload reply route st) = customAuthorization st ∧
  defaultAccess (after_preload reply route st) = defaultAccess st.
Proof.
  unfold after_preload. destruct (js_or _ _); try done.
  destruct (permissionsCache st !! s) as [[]|]; try done; by destruct reply.
Qed.

(** With a known current route the gate runs [isAuthorized] on the location
    path once the pre-load has settled, whichever way: [true] resolves the
    deferred with [true]; [false] rejects it with [false] and redirects to
    the route's [deniedRoute], or to ['/forbidden'] when that is falsy; an
    exception leaves the deferred pending. *)
Lemma authorizeOrRedirect_decides invoke reply st c route :
  current st = Some c →
  routes st !! originalPath c = Some route →
  let st1 := after_preload reply route st in
  authorizeOrRedirect invoke reply st =
  match fst (isAuthorized invoke (VStr (location_path st)) None st1) with
  | Ok true => (Ok (Done (Resolved (VBool true))), st1)
  | Ok false =>
      (Ok (Done (Rejected (VBool false))),
       set_navigation
         (λ l, (l ++ [SetPath (js_or (Route.deniedRoute route) (VStr "/forbidden"));
                      Replace])%list) st1)
  | Throw _ => (Ok Pending, st1)
  end.
Proof.
  intros Hc Hr st1. rewrite (authorizeOrRedirect_run _ _ _ _ _ Hc Hr).
  destruct (after_preload_routes reply route st) as (Hrs & Hcur & _).
  apply (_authorizeOrRedirect_run invoke _ _ c route).
  - by rewrite Hcur.
  - by rewrite Hrs.
Qed.

(** C3 at its failing input.  The permissions of the current route hold a
    [null] entry on the way of the location path ["/users/7"]: [findIn]
    reads a property of [null] and throws inside the callback of the
    pre-load promise, so that the deferred is neither resolved nor
    rejected and no redirect is issued, whatever the transport answers. *)
Theorem authorizeOrRedirect_stays_pending invoke reply :
  isAuthorized invoke (VStr "/users/7") None null_entry_route =
    (Throw TypeError, null_entry_route) ∧
  authorizeOrRedirect invoke reply null_entry_route = (Ok Pending, null_entry_route) ∧
  navigation null_entry_route = [].
Proof. repeat split; reflexivity. Qed.

Lemma split_from_nonempty sep s : ∀ skip cur, split_from sep skip cur s ≠ [].
Proof.
  induction s as [|ch s IH]; intros skip cur; cbn [split_from]; [done|].
  destruct skip; [|apply IH].
  destruct (String.prefix sep (String ch s)); [done|apply IH].
Qed.

(** Nothing is found in the empty mapping. *)
Lemma findIn_empty_mapping query delimiter :
  findIn query (VObj []) delimiter = Ok false.
Proof.
  unfold findIn, split.
  pose proof (split_from_nonempty (delimiter_or_slash delimiter) query 0%nat "").
  by destruct (split_from _ _ _ _).
Qed.

(** The degraded path, for override strategies that return: when the
    request of the pre-load fails, the gate still settles its deferred. *)
Lemma authorizeOrRedirect_fetch_failure invoke response st c route url :
  current st = Some c →
  routes st !! originalPath c = Some route →
  js_or (Route.permissions route) (defaultPermissions st) = VStr url →
  permissionsCache st !! url = None →
  ∃ s st', authorizeOrRedirect invoke (HttpFailure response) st = (Ok (Done s), st').
Proof.
  intros Hc Hr Hurl Hmiss.
  rewrite (authorizeOrRedirect_decides _ _ _ _ _ Hc Hr).
  cut (∃ b, fst (isAuthorized invoke (VStr (location_path st)) None
                   (after_preload (HttpFailure response) route st)) = Ok b).
  { intros [[] ->]; eauto. }
  unfold after_preload. rewrite Hurl, Hmiss.
  set (st1 := set_requests _ st).
  assert (current st1 = Some c) as Hc1 by exact Hc.
  assert (routes st1 !! originalPath c = Some route) as Hr1 by exact Hr.
  assert (fst (or_current None st1) = Ok (originalPath c)) as H.
  { simpl. by rewrite getCurrentRoutePath_run, Hc1. }
  assert (sync_permissions route st1 = VUndef) as Hsync.
  { unfold sync_permissions. change (defaultPermissions st1) with (defaultPermissions st).
    change (permissionsCache st1) with (permissionsCache st). by rewrite Hurl, Hmiss. }
  rewrite (isAuthorized_run invoke _ None st1 _ route c H Hr1 Hc1), Hsync.
  destruct (truthy (VStr (originalPath c)) &&
            is_function (Route.customAuthorization route)) eqn:Hhas.
  - rewrite (isAuthorized_chain_route _ _ _ _ _ _ _ Hr1 Hhas).
    rewrite (getCustomRouteAuthorization_run None st1 _ H).
    rewrite Hr1, Hhas.
    apply andb_prop in Hhas as [_ Hf].
    destruct (Route.customAuthorization route); try done. eauto.
  - destruct (customAuthorization st1) as [| | | | | | |f] eqn:Hg.
    8: { rewrite (isAuthorized_chain_global _ _ _ _ _ _ _ f Hr1 Hhas Hg). eauto. }
    all: rewrite (isAuthorized_chain_structural _ _ _ _ _ _ _ Hr1 Hhas);
      [|by rewrite Hg].
    all: unfold js_or; simpl; rewrite findIn_empty_mapping; eauto.
Qed.

(** ** The cache *)

Lemma getPermissionsFromRoute_inv routePath st v :
  fst (getPermissionsFromRoute routePath st) = Ok v →
  ∃ p route,
    fst (or_current routePath st) = Ok p ∧
    routes st !! p = Some route ∧
    js_or (Route.permissions route) (defaultPermissions st) = v.
Proof.
  destruct (fst (or_current routePath st)) as [p|e] eqn:H.
  - rewrite (getPermissionsFromRoute_run _ _ _ H).
    destruct (routes st !! p) as [route|] eqn:Hr; [|discriminate].
    intros [= <-]. eauto.
  - unfold getPermissionsFromRoute. rewrite bind_run.
    destruct (or_current routePath st) as [[]?]; simpl in *; discriminate.
Qed.

Lemma in_turn_unchanged {A B} (f : B → M A) (a : A) (l : list B) st :
  Forall (λ x, f x st = (Ok a, st)) l →
  in_turn (f <$> l) st = (Ok ((λ _, a) <$> l), st).
Proof.
  induction 1 as [|x rest Hx _ IH]; [done|].
  rewrite fmap_cons. cbn [in_turn]. rewrite bind_run, Hx, bind_run, IH. done.
Qed.

(** C4.  Once the answer [data] to a request for [url] has been written to
    the cache, [getPermissions] for any route whose permissions name [url]
    yields a promise already resolved with [data] and leaves the state,
    the list of requests included, as it is, however many such calls are
    made one after the other; [clearPermissionsCache] leaves no entry at
    all, after which the same calls issue a request again. *)
Theorem getPermissions_cached url data st routePaths :
  data ≠ VUndef →
  let st1 := snd (retrievePermissions_settle url (HttpSuccess data) st) in
  Forall (λ routePath, fst (getPermissionsFromRoute routePath st1) = Ok (VStr url))
         routePaths →
  permissionsCache st1 !! url = Some data ∧
  in_turn (getPermissions <$> routePaths) st1 =
    (Ok ((λ _, Settled (Resolved data)) <$> routePaths), st1) ∧
  permissionsCache (snd (clearPermissionsCache st1)) = ∅ ∧
  Forall (λ routePath,
            getPermissions routePath (snd (clearPermissionsCache st1)) =
            (Ok (AwaitingHttp url),
             set_requests (λ l, (l ++ [url])%list) (snd (clearPermissionsCache st1))))
         routePaths.
Proof.
  intros Hdata st1 Hall. subst st1. simpl in *.
  set (st1 := set_permissionsCache _ _) in *.
  assert (permissionsCache st1 !! url = Some data) as Hhit
    by apply lookup_insert_eq.
  split; [done|]. split; [|split; [done|]].
  - apply in_turn_unchanged. eapply Forall_impl; [exact Hall|].
    intros routePath H. simpl.
    apply getPermissionsFromRoute_inv in H as (p & route & H & Hr & Hv).
    rewrite (getPermissions_run _ _ _ H), Hr, Hv, Hhit. by destruct data.
  - eapply Forall_impl; [exact Hall|].
    intros routePath H. simpl.
    apply getPermissionsFromRoute_inv in H as (p & route & H & Hr & Hv).
    rewrite (getPermissions_run routePath (set_permissionsCache (λ _, ∅) st1) p);
      [|by rewrite (or_current_same_current _ st1)].
    simpl. change (routes st1) with (routes st) in *.
    rewrite Hr. simpl in Hv. by rewrite Hv, lookup_empty.
Qed.

Lemma getPermissions_cached_witness :
  let st1 := snd (retrievePermissions_settle "http://example.com/my-roles"
                    (HttpSuccess (VStr "RESPONSE 1"))
                    (url_route "http://example.com/my-roles")) in
  permissionsCache st1 !! "http://example.com/my-roles" = Some (VStr "RESPONSE 1") ∧
  in_turn (getPermissions <$> [None; Some "/"]) st1 =
    (Ok ((λ _, Settled (Resolved (VStr "RESPONSE 1"))) <$> [None; Some "/"]), st1) ∧
  permissionsCache (snd (clearPermissionsCache st1)) = ∅ ∧
  Forall (λ routePath,
            getPermissions routePath (snd (clearPermissionsCache st1)) =
            (Ok (AwaitingHttp "http://example.com/my-roles"),
             set_requests (λ l, (l ++ ["http://example.com/my-roles"])%list)
               (snd (clearPermissionsCache st1))))
         [None; Some "/"].
Proof.
  apply (getPermissions_cached "http://example.com/my-roles" (VStr "RESPONSE 1")
           (url_route "http://example.com/my-roles") [None; Some "/"]).
  - discriminate.
  - repeat constructor.
Defined.

(** ** Route identifiers *)

Lemma setPermissions_unknown permissions p st :
  p ≠ "" → routes st !! p = None →
  setPermissions permissions (Some p) st = (Throw (CouldNotFindRoute p), st).
Proof.
  intros Hp Hr. unfold setPermissions.
  by rewrite bind_run, (or_current_given _ _ Hp), bind_run, getRoute_run, Hr.
Qed.

Lemma setAccessDeniedRouteFor_run deniedRoute routePath st p :
  fst (or_current routePath st) = Ok p →
  setAccessDeniedRouteFor deniedRoute routePath st =
  match routes st !! p with
  | None => (Throw (CouldNotFindRoute p), st)
  | Some route =>
      match routes st !! "[object Object]" with
      | None => (Throw UnknownRouteForDeniedRoute, st)
      | Some _ =>
          (Ok tt,
           set_routes (λ rs, <[p := Route.mk (Route.permissions route)
                                    (Route.customAuthorization route)
                                    deniedRoute]> rs) st)
      end
  end.
Proof.
  intros H. unfold setAccessDeniedRouteFor.
  rewrite bind_run, (or_current_result _ _ _ H), bind_run, getRoute_run.
  destruct (routes st !! p) as [route|]; [|done].
  rewrite bind_run. unfold gets, Route.to_string.
  destruct (routes st !! "[object Object]"); reflexivity.
Qed.

Lemma isAuthorized_unknown invoke query p st :
  p ≠ "" → routes st !! p = None →
  isAuthorized invoke query (Some p) st = (Throw (CouldNotFindRoute p), st).
Proof.
  intros Hp Hr. unfold isAuthorized.
  by rewrite bind_run, (or_current_given _ _ Hp), bind_run, getRoute_run, Hr.
Qed.

(** C9 (as amended).  For a non-empty route identifier [p]: when [p] is a
    registered route, [getPermissionsFromRoute] returns the route's own
    permissions if they are truthy and the default permissions otherwise;
    when no route is registered under [p] and [p] is not the name of a
    member that the route table inherits as an object, every operation
    that takes a route fails with 'Could not find route' and leaves the
    state alone.  An empty identifier is taken as none: the call is about
    the current route. *)
Theorem route_identifier invoke st p :
  p ≠ "" →
  (∀ route, routes st !! p = Some route →
     getPermissionsFromRoute (Some p) st =
     (Ok (if truthy (Route.permissions route) then Route.permissions route
          else defaultPermissions st), st)) ∧
  (routes st !! p = None →
   object_prototype_member p = false →
     getPermissionsFromRoute (Some p) st = (Throw (CouldNotFindRoute p), st) ∧
     getPermissionsSync (Some p) st = (Throw (CouldNotFindRoute p), st) ∧
     getPermissions (Some p) st = (Throw (CouldNotFindRoute p), st) ∧
     getAccessDeniedRouteFor (Some p) st = (Throw (CouldNotFindRoute p), st) ∧
     hasCustomRouteAuthorization p st = (Throw (CouldNotFindRoute p), st) ∧
     getCustomRouteAuthorization (Some p) st = (Throw (CouldNotFindRoute p), st) ∧
     (∀ query,
        isAuthorized invoke query (Some p) st = (Throw (CouldNotFindRoute p), st)) ∧
     (∀ permissions,
        setPermissions permissions (Some p) st = (Throw (CouldNotFindRoute p), st)) ∧
     (∀ deniedRoute,
        setAccessDeniedRouteFor deniedRoute (Some p) st =
        (Throw (CouldNotFindRoute p), st))) ∧
  getPermissionsFromRoute (Some "") st = getPermissionsFromRoute None st.
Proof.
  intros Hp.
  assert (fst (or_current (Some p) st) = Ok p) as H by (by rewrite or_current_given).
  split; [|split; [|reflexivity]].
  - intros route Hr. by rewrite (getPermissionsFromRoute_run _ _ _ H), Hr.
  - intros Hr _.
    rewrite (getPermissionsFromRoute_run _ _ _ H), (getPermissionsSync_run _ _ _ H),
      (getPermissions_run _ _ _ H), (getAccessDeniedRouteFor_run _ _ _ H),
      hasCustomRouteAuthorization_run, (getCustomRouteAuthorization_run _ _ _ H), Hr.
    repeat split.
    + intros query. by apply isAuthorized_unknown.
    + intros permissions. by apply setPermissions_unknown.
    + intros deniedRoute. by rewrite (setAccessDeniedRouteFor_run _ _ _ _ H), Hr.
Qed.

Lemma route_identifier_witness :
  getPermissionsFromRoute (Some "/") (single_route (VArr [VStr "/"]) "/") =
    (Ok (VArr [VStr "/"]), single_route (VArr [VStr "/"]) "/") ∧
  getPermissionsFromRoute (Some "/non-existent-route")
    (single_route (VArr [VStr "/"]) "/") =
    (Throw (CouldNotFindRoute "/non-existent-route"),
     single_route (VArr [VStr "/"]) "/").
Proof.
  split.
  - pose proof (route_identifier no_callbacks (single_route (VArr [VStr "/"]) "/") "/"
                  ltac:(discriminate)) as [Hknown _].
    exact (Hknown (Route.mk (VArr [VStr "/"]) VUndef VUndef) eq_refl).
  - pose proof (route_identifier no_callbacks (single_route (VArr [VStr "/"]) "/")
                  "/non-existent-route" ltac:(discriminate)) as (_ & Hunknown & _).
    exact (proj1 (Hunknown eq_refl eq_refl)).
Defined.

(** C9 (as stated) fails at the empty route identifier.  In a table that
    knows the route [""], [getPermissionsFromRoute("")] returns the
    permissions of the current route ["/b"], not those of [""]; and where
    [""] is unknown, the call returns a value instead of failing. *)
Lemma route_identifier_empty_counterexample :
  routes empty_path_table !! "" = Some (Route.mk (VArr [VStr "/x"]) VUndef VUndef) ∧
  getPermissionsFromRoute (Some "") empty_path_table =
    (Ok (VArr [VStr "/y"]), empty_path_table) ∧
  routes (single_route (VArr [VStr "/"]) "/") !! "" = None ∧
  getPermissionsFromRoute (Some "") (single_route (VArr [VStr "/"]) "/") =
    (Ok (VArr [VStr "/"]), single_route (VArr [VStr "/"]) "/") ∧
  ¬ (∀ st p,
       match routes st !! p with
       | Some route =>
           fst (getPermissionsFromRoute (Some p) st) =
           Ok (js_or (Route.permissions route) (defaultPermissions st))
       | None =>
           fst (getPermissionsFromRoute (Some p) st) = Throw (CouldNotFindRoute p)
       end).
Proof.
  repeat split; try reflexivity.
  intros H. specialize (H empty_path_table ""). discriminate H.
Qed.

(** ** The setter of the denial target *)

(** C10 (as amended).  For a known route, [setAccessDeniedRouteFor] looks
    the route descriptor itself up in the route table, that is the key
    ["[object Object]"]: unless a route happens to be registered under
    that very key the call throws and the state is unchanged; if one is,
    the call sets [deniedRoute] on the route asked for. *)
Theorem setAccessDeniedRouteFor_known deniedRoute routePath st p route :
  fst (or_current routePath st) = Ok p →
  routes st !! p = Some route →
  (routes st !! "[object Object]" = None →
   setAccessDeniedRouteFor deniedRoute routePath st =
   (Throw UnknownRouteForDeniedRoute, st)) ∧
  (is_Some (routes st !! "[object Object]") →
   setAccessDeniedRouteFor deniedRoute routePath st =
   (Ok tt,
    set_routes (λ rs, <[p := Route.mk (Route.permissions route)
                             (Route.customAuthorization route)
                             deniedRoute]> rs) st)).
Proof.
  intros H Hr. rewrite (setAccessDeniedRouteFor_run _ _ _ _ H), Hr.
  split; [by intros ->|by intros [? ->]].
Qed.

Lemma setAccessDeniedRouteFor_known_witness :
  setAccessDeniedRouteFor (VStr "/denied") (Some "/") (single_route VUndef "/") =
  (Throw UnknownRouteForDeniedRoute, single_route VUndef "/").
Proof.
  apply (setAccessDeniedRouteFor_known (VStr "/denied") (Some "/")
           (single_route VUndef "/") "/" (Route.mk VUndef VUndef VUndef)
           eq_refl eq_refl).
  reflexivity.
Defined.

(** C10 (as stated) fails on a table with a route registered under
    ["[object Object]"]: the setter does not throw for the known route
    ["/a"], and the denial target of ["/a"] has changed. *)
Lemma setAccessDeniedRouteFor_counterexample :
  fst (setAccessDeniedRouteFor (VStr "/denied") (Some "/a") odd_table) = Ok tt ∧
  fst (getAccessDeniedRouteFor (Some "/a") odd_table) = Ok (VStr "/forbidden") ∧
  fst (getAccessDeniedRouteFor (Some "/a")
         (snd (setAccessDeniedRouteFor (VStr "/denied") (Some "/a") odd_table))) =
    Ok (VStr "/denied") ∧
  ¬ (∀ st p deniedRoute,
       is_Some (routes st !! p) →
       ∃ e, setAccessDeniedRouteFor deniedRoute (Some p) st = (Throw e, st)).
Proof.
  repeat split; try reflexivity.
  intros H. destruct (H odd_table "/a" (VStr "/denied")) as [e He]; [by eexists|].
  discriminate He.
Qed.

(** * Further properties of the provider *)

(** ** Setting permissions *)

Lemma setPermissions_run permissions routePath st p :
  fst (or_current routePath st) = Ok p →
  setPermissions permissions routePath st =
  match routes st !! p with
  | Some route =>
      (Ok tt,
       set_routes (λ rs, <[p := Route.mk permissions
                                (Route.customAuthorization route)
                                (Route.deniedRoute route)]> rs) st)
  | None => (Throw (CouldNotFindRoute p), st)
  end.
Proof.
  intros H. unfold setPermissions.
  rewrite bind_run, (or_current_result _ _ _ H), bind_run, getRoute_run.
  by destruct (routes st !! p).
Qed.

(** X1.  What [setPermissions] stores on a known route is what the getters
    read back: [getPermissionsFromRoute] returns the new value, or the
    default permissions when the new value is falsy; a truthy value that is
    not a string (a static document) is also what [getPermissionsSync]
    returns and what [getPermissions] resolves with at once, no request
    being issued. *)
Theorem setPermissions_read_back permissions routePath st p route :
  fst (or_current routePath st) = Ok p →
  routes st !! p = Some route →
  let st' := snd (setPermissions permissions routePath st) in
  fst (setPermissions permissions routePath st) = Ok tt ∧
  getPermissionsFromRoute routePath st' =
    (Ok (if truthy permissions then permissions else defaultPermissions st), st') ∧
  (truthy permissions = true → (∀ url, permissions ≠ VStr url) →
   getPermissionsSync routePath st' = (Ok permissions, st') ∧
   getPermissions routePath st' = (Ok (Settled (Resolved permissions)), st')).
Proof.
  intros H Hr st'. subst st'.
  rewrite (setPermissions_run _ _ _ _ H), Hr. simpl.
  set (st' := set_routes _ st).
  assert (fst (or_current routePath st') = Ok p) as H'
    by (by rewrite (or_current_same_current _ st)).
  assert (routes st' !! p = Some (Route.mk permissions
            (Route.customAuthorization route) (Route.deniedRoute route))) as Hr'
    by apply lookup_insert_eq.
  split; [done|]. split.
  - by rewrite (getPermissionsFromRoute_run _ _ _ H'), Hr'.
  - intros Ht Hs.
    rewrite (getPermissionsSync_run _ _ _ H'), (getPermissions_run _ _ _ H'), Hr'.
    unfold js_or. simpl. rewrite Ht.
    destruct permissions; try done. by destruct (Hs s).
Qed.

Lemma setPermissions_read_back_witness :
  let st := single_route VUndef "/" in
  let st' := snd (setPermissions sample_document None st) in
  fst (setPermissions sample_document None st) = Ok tt ∧
  getPermissionsFromRoute None st' =
    (Ok (if truthy sample_document then sample_document else defaultPermissions st),
     st') ∧
  (truthy sample_document = true → (∀ url, sample_document ≠ VStr url) →
   getPermissionsSync None st' = (Ok sample_document, st') ∧
   getPermissions None st' = (Ok (Settled (Resolved sample_document)), st')).
Proof.
  exact (setPermissions_read_back sample_document None (single_route VUndef "/") "/"
           (Route.mk VUndef VUndef VUndef) eq_refl eq_refl).
Defined.

(** X2.  [setPermissions] on a known route changes the permissions of that
    route and nothing else: its override strategy and its denial target
    stay, the other routes stay, and so do the cache, the default
    permissions, the global override, the default access, the current
    route and the lists of requests and redirects. *)
Theorem setPermissions_frame permissions routePath st p route :
  fst (or_current routePath st) = Ok p →
  routes st !! p = Some route →
  let st' := snd (setPermissions permissions routePath st) in
  routes st' !! p =
    Some (Route.mk permissions (Route.customAuthorization route)
            (Route.deniedRoute route)) ∧
  (∀ q, q ≠ p → routes st' !! q = routes st !! q) ∧
  permissionsCache st' = permissionsCache st ∧
  defaultPermissions st' = defaultPermissions st ∧
  customAuthorization st' = customAuthorization st ∧
  defaultAccess st' = defaultAccess st ∧
  current st' = current st ∧
  requests st' = requests st ∧
  navigation st' = navigation st.
Proof.
  intros H Hr st'. subst st'.
  rewrite (setPermissions_run _ _ _ _ H), Hr. simpl.
  split; [apply lookup_insert_eq|]. split; [|done].
  intros q Hq. by apply lookup_insert_ne.
Qed.

Lemma setPermissions_frame_witness :
  let st := two_routes VUndef in
  let st' := snd (setPermissions (VArr [VStr "/a"]) (Some "/a") st) in
  routes st' !! "/a" = Some (Route.mk (VArr [VStr "/a"]) (VFun (Fn 0)) VUndef) ∧
  (∀ q, q ≠ "/a" → routes st' !! q = routes st !! q) ∧
  permissionsCache st' = permissionsCache st ∧
  defaultPermissions st' = defaultPermissions st ∧
  customAuthorization st' = customAuthorization st ∧
  defaultAccess st' = defaultAccess st ∧
  current st' = current st ∧
  requests st' = requests st ∧
  navigation st' = navigation st.
Proof.
  exact (setPermissions_frame (VArr [VStr "/a"]) (Some "/a") (two_routes VUndef) "/a"
           (Route.mk VUndef (VFun (Fn 0)) VUndef) eq_refl eq_refl).
Defined.

(** X3.  The default permissions are a fallback only: after
    [setDefaultPermissions(v)] a known route with truthy permissions of its
    own still yields its own, and any other known route yields [v]. *)
Theorem setDefaultPermissions_fallback permissions routePath st p route :
  fst (or_current routePath st) = Ok p →
  routes st !! p = Some route →
  let st' := snd (setDefaultPermissions permissions st) in
  getPermissionsFromRoute routePath st' =
  (Ok (if truthy (Route.permissions route) then Route.permissions route
       else permissions), st').
Proof.
  intros H Hr st'. subst st'. simpl.
  rewrite (getPermissionsFromRoute_run _ _ p);
    [|by rewrite (or_current_same_current _ st)].
  simpl. by rewrite Hr.
Qed.

Lemma setDefaultPermissions_fallback_witness :
  let st' := snd (setDefaultPermissions (VArr [VNum 1]) (single_route VUndef "/")) in
  getPermissionsFromRoute None st' = (Ok (VArr [VNum 1]), st').
Proof.
  exact (setDefaultPermissions_fallback (VArr [VNum 1]) None (single_route VUndef "/")
           "/" (Route.mk VUndef VUndef VUndef) eq_refl eq_refl).
Defined.

(** ** The order of the decision chain *)

(** X4.  Once [setCustomAuthorization] has stored a function, it decides
    every query on a known route that has no override strategy of its own,
    whatever the query and the permissions are: the result is the
    truthiness of what the function returns on
    (query, permissions or [{}], route, current parameters). *)
Theorem setCustomAuthorization_decides invoke f query routePath st p route c :
  fst (or_current routePath st) = Ok p →
  routes st !! p = Some route →
  current st = Some c →
  is_function (Route.customAuthorization route) = false →
  let st' := snd (setCustomAuthorization (VFun f) st) in
  isAuthorized invoke query routePath st' =
  (Ok (truthy (invoke f query (js_or (sync_permissions route st) (VObj []))
                 route (params c))), st').
Proof.
  intros H Hr Hc Hroute st'. subst st'. simpl.
  set (st' := set_customAuthorization _ st).
  assert (fst (or_current routePath st') = Ok p) as H'
    by (by rewrite (or_current_same_current _ st)).
  rewrite (isAuthorized_run invoke query routePath st' p route c H' Hr Hc).
  apply isAuthorized_chain_global; [done| |done].
  rewrite Hroute. apply andb_false_r.
Qed.

Lemma setCustomAuthorization_decides_witness :
  let st := single_route (VArr [VStr "/"]) "/" in
  let st' := snd (setCustomAuthorization (VFun (Fn 0)) st) in
  isAuthorized no_callbacks (VStr "/") None st' = (Ok false, st').
Proof.
  exact (setCustomAuthorization_decides no_callbacks (Fn 0) (VStr "/") None
           (single_route (VArr [VStr "/"]) "/") "/"
           (Route.mk (VArr [VStr "/"]) VUndef VUndef)
           {| originalPath := "/"; params := VObj [] |}
           eq_refl eq_refl eq_refl eq_refl).
Defined.

(** X5.  For the current route, an override strategy on the route decides
    and the global override is not looked at: whatever
    [customAuthorization] holds, [isAuthorized] returns the truthiness of
    what the route's function returns. *)
Theorem isAuthorized_current_route_override invoke query routePath st p route c f :
  fst (or_current routePath st) = Ok p →
  routes st !! p = Some route →
  current st = Some c →
  originalPath c = p →
  p ≠ "" →
  Route.customAuthorization route = VFun f →
  ∀ global,
    let st' := snd (setCustomAuthorization global st) in
    isAuthorized invoke query routePath st' =
    (Ok (truthy (invoke f query (js_or (sync_permissions route st) (VObj []))
                   route (params c))), st').
Proof.
  intros H Hr Hc Hp Hne Hf global st'. subst st'. simpl.
  set (st' := set_customAuthorization _ st).
  apply (isAuthorized_route_override invoke query routePath st' p route c f);
    try done.
  by rewrite (or_current_same_current _ st).
Qed.

Lemma isAuthorized_current_route_override_witness :
  let st' := snd (setCustomAuthorization (VFun (Fn 2)) (two_routes (VFun (Fn 1)))) in
  isAuthorized no_callbacks (VNum 1) None st' = (Ok false, st').
Proof.
  exact (isAuthorized_current_route_override no_callbacks (VNum 1) None
           (two_routes (VFun (Fn 1))) "/b" (Route.mk VUndef (VFun (Fn 1)) VUndef)
           {| originalPath := "/b"; params := VObj [] |} (Fn 1)
           eq_refl eq_refl eq_refl eq_refl ltac:(discriminate) eq_refl
           (VFun (Fn 2))).
Defined.

(** X6.  Without override strategies, a string query against permissions
    that are a sequence is allowed exactly when the sequence holds that
    very string; the state is unchanged. *)
Theorem isAuthorized_membership invoke q xs routePath st p route c :
  fst (or_current routePath st) = Ok p →
  routes st !! p = Some route →
  current st = Some c →
  is_function (Route.customAuthorization route) = false →
  is_function (customAuthorization st) = false →
  sync_permissions route st = VArr xs →
  ∃ b, isAuthorized invoke (VStr q) routePath st = (Ok b, st) ∧
       (b = true ↔ In (VStr q) xs).
Proof.
  intros H Hr Hc Hroute Hglobal Hxs.
  rewrite (isAuthorized_without_override _ _ _ _ _ _ _ H Hr Hc Hroute Hglobal), Hxs.
  simpl. eexists. split; [reflexivity|].
  destruct (Z.eqb_spec (indexOf xs q) (-1)) as [E|E]; simpl.
  - split; [done|]. intros Hin. by apply indexOf_absent in E.
  - split; [|done]. intros _. by apply indexOf_present.
Qed.

Lemma isAuthorized_membership_witness :
  ∃ b, isAuthorized no_callbacks (VStr "/a") None
         (single_route (VArr [VStr "/a"; VStr "/b"]) "/") =
       (Ok b, single_route (VArr [VStr "/a"; VStr "/b"]) "/") ∧
       (b = true ↔ In (VStr "/a") [VStr "/a"; VStr "/b"]).
Proof.
  exact (isAuthorized_membership no_callbacks "/a" [VStr "/a"; VStr "/b"] None
           (single_route (VArr [VStr "/a"; VStr "/b"]) "/") "/"
           (Route.mk (VArr [VStr "/a"; VStr "/b"]) VUndef VUndef)
           {| originalPath := "/"; params := VObj [] |}
           eq_refl eq_refl eq_refl eq_refl eq_refl eq_refl).
Defined.

Lemma findIn_first_token_empty rest kvs :
  own_property kvs "" = VUndef →
  findIn (String "/" rest) (VObj kvs) None = Ok false.
Proof.
  intros H. unfold findIn, split, delimiter_or_slash. cbn [split_from].
  assert (String.prefix "/" (String "/" rest) = true) as ->
    by (by destruct rest).
  cbn [rev_string findIn_loop get_prop]. by rewrite H.
Qed.

(** X7.  The default access is not consulted for a query that is a path:
    without override strategies, a string query that starts with ['/'] is
    denied whenever the resolved permissions are falsy (none configured, a
    cache miss) or are a mapping with no defined entry under the empty
    key, also when the default access is to allow. *)
Theorem isAuthorized_path_query_denied invoke rest routePath st p route c :
  fst (or_current routePath st) = Ok p →
  routes st !! p = Some route →
  current st = Some c →
  is_function (Route.customAuthorization route) = false →
  is_function (customAuthorization st) = false →
  (truthy (sync_permissions route st) = false ∨
   ∃ kvs, sync_permissions route st = VObj kvs ∧ own_property kvs "" = VUndef) →
  ∀ allowOrDeny,
    let st' := snd (setDefaultAccess allowOrDeny st) in
    isAuthorized invoke (VStr (String "/" rest)) routePath st' = (Ok false, st').
Proof.
  intros H Hr Hc Hroute Hglobal Hsync allowOrDeny st'. subst st'. simpl.
  set (st' := set_defaultAccess _ st).
  assert (fst (or_current routePath st') = Ok p) as H'
    by (by rewrite (or_current_same_current _ st)).
  rewrite (isAuthorized_without_override invoke _ routePath st' p route c
             H' Hr Hc Hroute Hglobal).
  change (sync_permissions route st') with (sync_permissions route st).
  destruct Hsync as [Hfalsy|(kvs & Hkvs & Hempty)].
  - unfold js_or. rewrite Hfalsy. cbv zeta. by rewrite findIn_first_token_empty.
  - rewrite Hkvs. unfold js_or. simpl. by rewrite findIn_first_token_empty.
Qed.

Lemma isAuthorized_path_query_denied_witness :
  let st' := snd (setDefaultAccess (VBool true)
                    (single_route (VObj [("canEdit", VArr [VNum 1; VNum 2; VNum 3])])
                       "/")) in
  isAuthorized no_callbacks (VStr "/canEdit/1") None st' = (Ok false, st').
Proof.
  exact (isAuthorized_path_query_denied no_callbacks "canEdit/1" None
           (single_route (VObj [("canEdit", VArr [VNum 1; VNum 2; VNum 3])]) "/") "/"
           (Route.mk (VObj [("canEdit", VArr [VNum 1; VNum 2; VNum 3])]) VUndef VUndef)
           {| originalPath := "/"; params := VObj [] |}
           eq_refl eq_refl eq_refl eq_refl eq_refl
           (or_intror (ex_intro _ [("canEdit", VArr [VNum 1; VNum 2; VNum 3])]
                         (conj eq_refl eq_refl)))
           (VBool true)).
Defined.

(** X8.  [isAuthorized] reads [$route.current.params] before anything is
    decided: without a current route it throws a TypeError even for a
    known route given by its path, and the state is unchanged. *)
Theorem isAuthorized_needs_current_route invoke query p st route :
  p ≠ "" →
  routes st !! p = Some route →
  current st = None →
  isAuthorized invoke query (Some p) st = (Throw TypeError, st).
Proof.
  intros Hp Hr Hc. unfold isAuthorized.
  rewrite bind_run, (or_current_given _ _ Hp), bind_run, getRoute_run, Hr.
  by rewrite bind_run, currentParams_run, Hc.
Qed.

Lemma isAuthorized_needs_current_route_witness :
  isAuthorized no_callbacks (VStr "/") (Some "/")
    (fresh {["/" := Route.mk VUndef VUndef VUndef]} None "/") =
  (Throw TypeError, fresh {["/" := Route.mk VUndef VUndef VUndef]} None "/").
Proof.
  exact (isAuthorized_needs_current_route no_callbacks (VStr "/") "/"
           (fresh {["/" := Route.mk VUndef VUndef VUndef]} None "/")
           (Route.mk VUndef VUndef VUndef) ltac:(discriminate) eq_refl eq_refl).
Defined.

(** ** The navigation gate, continued *)

(** X9.  With a known current route, once [isAuthorized] has decided on the
    location path in the state that the pre-load leaves, the gate follows
    the decision: [true] resolves the deferred with [true] and issues no
    redirect; [false] rejects it with [false] and appends exactly one
    redirect, to the route's [deniedRoute] when that is truthy and to
    ['/forbidden'] otherwise, followed by [replace]. *)
Theorem authorizeOrRedirect_outcome invoke reply st c route b :
  current st = Some c →
  routes st !! originalPath c = Some route →
  let st1 := after_preload reply route st in
  fst (isAuthorized invoke (VStr (location_path st)) None st1) = Ok b →
  authorizeOrRedirect invoke reply st =
  if b then (Ok (Done (Resolved (VBool true))), st1)
  else (Ok (Done (Rejected (VBool false))),
        set_navigation
          (λ l, (l ++ [SetPath (if truthy (Route.deniedRoute route)
                                then Route.deniedRoute route
                                else VStr "/forbidden");
                       Replace])%list) st1).
Proof.
  intros Hc Hr st1 Hb.
  rewrite (authorizeOrRedirect_decides _ _ _ _ _ Hc Hr). fold st1.
  rewrite Hb. by destruct b.
Qed.

Lemma authorizeOrRedirect_outcome_witness :
  let st := fresh {["/" := Route.mk (VObj []) VUndef (VStr "/a-different-access-denied")]}
              (Some {| originalPath := "/"; params := VObj [] |}) "/" in
  authorizeOrRedirect no_callbacks (HttpFailure VNull) st =
  (Ok (Done (Rejected (VBool false))),
   set_navigation
     (λ l, (l ++ [SetPath (VStr "/a-different-access-denied"); Replace])%list) st).
Proof.
  exact (authorizeOrRedirect_outcome no_callbacks (HttpFailure VNull)
           (fresh {["/" := Route.mk (VObj []) VUndef (VStr "/a-different-access-denied")]}
              (Some {| originalPath := "/"; params := VObj [] |}) "/")
           {| originalPath := "/"; params := VObj [] |}
           (Route.mk (VObj []) VUndef (VStr "/a-different-access-denied")) false
           eq_refl eq_refl eq_refl).
Defined.

(** X11.  The gate never allows by default: its query is the location
    path, a string, so that without override strategies and without usable
    permissions once the pre-load has settled (none configured, or a
    request that failed) the deferred is rejected with [false] and the
    redirect is issued, whatever the default access is. *)
Theorem authorizeOrRedirect_denies_without_permissions invoke reply st c route :
  current st = Some c →
  routes st !! originalPath c = Some route →
  is_function (Route.customAuthorization route) = false →
  is_function (customAuthorization st) = false →
  let st1 := after_preload reply route st in
  truthy (sync_permissions route st1) = false →
  authorizeOrRedirect invoke reply st =
  (Ok (Done (Rejected (VBool false))),
   set_navigation
     (λ l, (l ++ [SetPath (js_or (Route.deniedRoute route) (VStr "/forbidden"));
                  Replace])%list) st1).
Proof.
  intros Hc Hr Hroute Hglobal st1 Hsync.
  rewrite (authorizeOrRedirect_decides _ _ _ _ _ Hc Hr). fold st1.
  destruct (after_preload_routes reply route st) as (Hrs & Hcur & _ & _ & _ & Hg & _).
  fold st1 in Hrs, Hcur, Hg.
  rewrite (isAuthorized_without_override invoke _ None st1 (originalPath c) route c).
  - unfold js_or at 1. rewrite Hsync. simpl. by rewrite findIn_empty_mapping.
  - simpl. by rewrite getCurrentRoutePath_run, Hcur, Hc.
  - by rewrite Hrs.
  - by rewrite Hcur.
  - done.
  - by rewrite Hg.
Qed.

Lemma authorizeOrRedirect_denies_without_permissions_witness :
  let st := snd (setDefaultAccess (VBool true)
                   (url_route "http://example.com/my-roles")) in
  authorizeOrRedirect no_callbacks (HttpFailure VNull) st =
  (Ok (Done (Rejected (VBool false))),
   set_navigation (λ l, (l ++ [SetPath (VStr "/forbidden"); Replace])%list)
     (after_preload (HttpFailure VNull)
        (Route.mk (VStr "http://example.com/my-roles") VUndef VUndef) st)).
Proof.
  exact (authorizeOrRedirect_denies_without_permissions no_callbacks (HttpFailure VNull)
           (snd (setDefaultAccess (VBool true) (url_route "http://example.com/my-roles")))
           {| originalPath := "/"; params := VObj [] |}
           (Route.mk (VStr "http://example.com/my-roles") VUndef VUndef)
           eq_refl eq_refl eq_refl eq_refl eq_refl).
Defined.

Lemma after_preload_effects reply route st :
  (requests (after_preload reply route st) = requests st ∨
   ∃ url, js_or (Route.permissions route) (defaultPermissions st) = VStr url ∧
          requests (after_preload reply route st) = (requests st ++ [url])%list) ∧
  (∀ k, js_or (Route.permissions route) (defaultPermissions st) ≠ VStr k →
        permissionsCache (after_preload reply route st) !! k =
        permissionsCache st !! k).
Proof.
  unfold after_preload.
  destruct (js_or _ _) as [| | | |url| | |] eqn:E; try (split; [by left|done]).
  destruct (permissionsCache st !! url) as [[]|]; try (split; [by left|done]).
  all: split; [right; exists url; by destruct reply|].
  all: intros k Hk; destruct reply; [|done]; simpl;
    apply lookup_insert_ne; congruence.
Qed.

(** X12.  What a call of the gate can change, given a known current route:
    it issues at most one request, for the URL that names the route's
    permissions; it writes no cache entry but the one under that URL; it
    appends either nothing or one redirect with its [replace] to the calls
    on [$location]; routes, current route, default permissions, global
    override and default access are as before. *)
Theorem authorizeOrRedirect_frame invoke reply st c route :
  current st = Some c →
  routes st !! originalPath c = Some route →
  let st' := snd (authorizeOrRedirect invoke reply st) in
  routes st' = routes st ∧
  current st' = current st ∧
  defaultPermissions st' = defaultPermissions st ∧
  customAuthorization st' = customAuthorization st ∧
  defaultAccess st' = defaultAccess st ∧
  (requests st' = requests st ∨
   ∃ url, js_or (Route.permissions route) (defaultPermissions st) = VStr url ∧
          requests st' = (requests st ++ [url])%list) ∧
  (∀ k, js_or (Route.permissions route) (defaultPermissions st) ≠ VStr k →
        permissionsCache st' !! k = permissionsCache st !! k) ∧
  (navigation st' = navigation st ∨
   ∃ target, truthy target = true ∧
             navigation st' = (navigation st ++ [SetPath target; Replace])%list).
Proof.
  intros Hc Hr st'. subst st'.
  rewrite (authorizeOrRedirect_decides _ _ _ _ _ Hc Hr).
  destruct (after_preload_routes reply route st)
    as (Hrs & Hcur & _ & Hnav & Hdp & Hg & Hda).
  destruct (after_preload_effects reply route st) as (Hreq & Hcache).
  destruct (fst (isAuthorized _ _ _ _)) as [[]|]; simpl;
    repeat (split; [done|]); try (by left).
  right. exists (js_or (Route.deniedRoute route) (VStr "/forbidden")).
  split; [|by rewrite Hnav].
  unfold js_or. by destruct (truthy (Route.deniedRoute route)) eqn:E.
Qed.

Lemma authorizeOrRedirect_frame_witness :
  let st := url_route "http://example.com/my-roles" in
  let st' := snd (authorizeOrRedirect no_callbacks (HttpSuccess (VArr [VStr "/"])) st) in
  requests st' = ["http://example.com/my-roles"] ∧ navigation st' = [] ∧
  routes st' = routes st.
Proof.
  pose proof (authorizeOrRedirect_frame no_callbacks (HttpSuccess (VArr [VStr "/"]))
                (url_route "http://example.com/my-roles")
                {| originalPath := "/"; params := VObj [] |}
                (Route.mk (VStr "http://example.com/my-roles") VUndef VUndef)
                eq_refl eq_refl) as (Hrs & _).
  split; [reflexivity|]. split; [reflexivity|]. exact Hrs.
Defined.

(** X13.  The gate fails before anything is done when there is no current
    route (a TypeError) or when the current route is not in the route
    table ('Could not find route'): no request is issued, no redirect, no
    deferred is handed back, and the state is unchanged. *)
Theorem authorizeOrRedirect_without_route invoke reply st :
  (current st = None →
   authorizeOrRedirect invoke reply st = (Throw TypeError, st)) ∧
  (∀ c, current st = Some c → routes st !! originalPath c = None →
        authorizeOrRedirect invoke reply st =
        (Throw (CouldNotFindRoute (originalPath c)), st)).
Proof.
  split.
  - intros Hc. unfold authorizeOrRedirect, getPermissions, getPermissionsFromRoute.
    rewrite bind_run. unfold gets at 1. rewrite !bind_run.
    unfold or_current. by rewrite getCurrentRoutePath_run, Hc.
  - intros c Hc Hr. unfold authorizeOrRedirect.
    rewrite bind_run. simpl. rewrite bind_run.
    rewrite (getPermissions_run None st (originalPath c)), Hr; [done|].
    simpl. by rewrite getCurrentRoutePath_run, Hc.
Qed.

(** X14.  The decision is taken on the document that the pre-load has
    fetched: on a route that names its permissions by URL, with nothing
    cached and no override strategies, an answer that is a sequence is put
    in the cache under the URL, one request has been issued, and the
    deferred is resolved with [true] if the sequence holds the location
    path and rejected with [false] otherwise. *)
Theorem authorizeOrRedirect_fetched_sequence invoke xs st c route url :
  current st = Some c →
  routes st !! originalPath c = Some route →
  is_function (Route.customAuthorization route) = false →
  is_function (customAuthorization st) = false →
  js_or (Route.permissions route) (defaultPermissions st) = VStr url →
  permissionsCache st !! url = None →
  let r := authorizeOrRedirect invoke (HttpSuccess (VArr xs)) st in
  permissionsCache (snd r) !! url = Some (VArr xs) ∧
  requests (snd r) = (requests st ++ [url])%list ∧
  (In (VStr (location_path st)) xs →
   fst r = Ok (Done (Resolved (VBool true))) ∧ navigation (snd r) = navigation st) ∧
  (¬ In (VStr (location_path st)) xs →
   fst r = Ok (Done (Rejected (VBool false))) ∧
   navigation (snd r) =
     (navigation st ++ [SetPath (js_or (Route.deniedRoute route) (VStr "/forbidden"));
                        Replace])%list).
Proof.
  intros Hc Hr Hroute Hglobal Hurl Hmiss r. subst r.
  rewrite (authorizeOrRedirect_decides _ _ _ _ _ Hc Hr).
  unfold after_preload. rewrite Hurl, Hmiss.
  set (st1 := set_permissionsCache _ _).
  assert (permissionsCache st1 !! url = Some (VArr xs)) as Hhit
    by apply lookup_insert_eq.
  assert (sync_permissions route st1 = VArr xs) as Hsync.
  { unfold sync_permissions.
    change (defaultPermissions st1) with (defaultPermissions st).
    by rewrite Hurl, Hhit. }
  assert (current st1 = Some c) as Hc1 by exact Hc.
  rewrite (isAuthorized_without_override invoke _ None st1 (originalPath c) route c);
    [|simpl; by rewrite getCurrentRoutePath_run, Hc1|done..].
  rewrite Hsync. simpl.
  destruct (Z.eqb_spec (indexOf xs (location_path st)) (-1)) as [E|E]; simpl.
  - apply indexOf_absent in E. repeat split; try done.
  - apply indexOf_present in E. repeat split; try done.
Qed.

Lemma authorizeOrRedirect_fetched_sequence_witness :
  let st := url_route "http://example.com/my-roles" in
  let r := authorizeOrRedirect no_callbacks (HttpSuccess (VArr [VStr "/"])) st in
  permissionsCache (snd r) !! "http://example.com/my-roles" = Some (VArr [VStr "/"]) ∧
  fst r = Ok (Done (Resolved (VBool true))).
Proof.
  pose proof (authorizeOrRedirect_fetched_sequence no_callbacks [VStr "/"]
                (url_route "http://example.com/my-roles")
                {| originalPath := "/"; params := VObj [] |}
                (Route.mk (VStr "http://example.com/my-roles") VUndef VUndef)
                "http://example.com/my-roles"
                eq_refl eq_refl eq_refl eq_refl eq_refl eq_refl)
    as (Hcache & _ & Hin & _).
  split; [exact Hcache|]. apply Hin. left. reflexivity.
Defined.

(** ** Resolving permissions *)

Lemma or_current_throws routePath st e :
  fst (or_current routePath st) = Throw e → or_current routePath st = (Throw e, st).
Proof.
  intros H. pose proof (or_current_state routePath st) as Hs.
  destruct (or_current routePath st) as [r st']. simpl in *. congruence.
Qed.

(** X15.  [getPermissions] and [getPermissionsSync] agree, and a request is
    the only trace [getPermissions] can leave.  A promise that is handed
    back already settled is resolved, never rejected, with the very value
    [getPermissionsSync] returns, and the state is untouched.  A promise
    that waits for the transport means that the route's permissions are a
    URL for which [getPermissionsSync] returns [undefined]; exactly one
    request for that URL has been added and nothing else has changed.  A
    call that throws has changed nothing. *)
Theorem getPermissions_effects routePath st :
  match getPermissions routePath st with
  | (Ok (Settled s), st') =>
      st' = st ∧ ∃ v, s = Resolved v ∧ fst (getPermissionsSync routePath st) = Ok v
  | (Ok (AwaitingHttp url), st') =>
      st' = set_requests (λ l, (l ++ [url])%list) st ∧
      fst (getPermissionsFromRoute routePath st) = Ok (VStr url) ∧
      fst (getPermissionsSync routePath st) = Ok VUndef
  | (Throw e, st') =>
      st' = st ∧ fst (getPermissionsSync routePath st) = Throw e
  end.
Proof.
  destruct (fst (or_current routePath st)) as [p|e] eqn:H.
  - rewrite (getPermissions_run _ _ _ H), (getPermissionsSync_run _ _ _ H),
      (getPermissionsFromRoute_run _ _ _ H).
    destruct (routes st !! p) as [route|]; [|done].
    destruct (js_or _ _); simpl; eauto.
    destruct (permissionsCache st !! s) as [[]|]; simpl; eauto.
  - unfold getPermissions, getPermissionsSync, getPermissionsFromRoute.
    rewrite !bind_run, (or_current_throws _ _ _ H). done.
Qed.

(** X16.  A failed request is not remembered: after [getPermissions] has
    issued a request for a route whose URL is not cached and the transport
    has answered with a failure, the promise is rejected with the
    transport's response, the cache is as before, and the next
    [getPermissions] for that route issues the request once more. *)
Theorem getPermissions_after_failure routePath response st url :
  fst (getPermissionsFromRoute routePath st) = Ok (VStr url) →
  permissionsCache st !! url = None →
  let st1 := snd (getPermissions routePath st) in
  let st2 := snd (retrievePermissions_settle url (HttpFailure response) st1) in
  fst (getPermissions routePath st) = Ok (AwaitingHttp url) ∧
  fst (retrievePermissions_settle url (HttpFailure response) st1) =
    Ok (Rejected response) ∧
  permissionsCache st2 = permissionsCache st ∧
  fst (getPermissions routePath st2) = Ok (AwaitingHttp url) ∧
  requests (snd (getPermissions routePath st2)) = (requests st ++ [url; url])%list.
Proof.
  intros Hfrom Hmiss st1 st2. subst st1 st2.
  apply getPermissionsFromRoute_inv in Hfrom as (p & route & H & Hr & Hv).
  rewrite (getPermissions_run _ _ _ H), Hr, Hv, Hmiss. simpl.
  set (st1 := set_requests _ st).
  assert (fst (or_current routePath st1) = Ok p) as H1
    by (by rewrite (or_current_same_current _ st)).
  rewrite (getPermissions_run _ _ _ H1).
  change (routes st1) with (routes st).
  change (defaultPermissions st1) with (defaultPermissions st).
  change (permissionsCache st1) with (permissionsCache st).
  rewrite Hr, Hv, Hmiss. simpl. by rewrite <- app_assoc.
Qed.

Lemma getPermissions_after_failure_witness :
  let st := url_route "http://example.com/my-roles" in
  let st1 := snd (getPermissions None st) in
  let st2 := snd (retrievePermissions_settle "http://example.com/my-roles"
                    (HttpFailure VNull) st1) in
  fst (getPermissions None st) = Ok (AwaitingHttp "http://example.com/my-roles") ∧
  fst (retrievePermissions_settle "http://example.com/my-roles"
         (HttpFailure VNull) st1) = Ok (Rejected VNull) ∧
  permissionsCache st2 = permissionsCache st ∧
  fst (getPermissions None st2) = Ok (AwaitingHttp "http://example.com/my-roles") ∧
  requests (snd (getPermissions None st2)) =
    (requests st ++ ["http://example.com/my-roles"; "http://example.com/my-roles"])%list.
Proof.
  exact (getPermissions_after_failure None VNull
           (url_route "http://example.com/my-roles") "http://example.com/my-roles"
           eq_refl eq_refl).
Defined.

Lemma readonly_routeExists route : readonly (routeExists route).
Proof. unfold routeExists. repeat readonly_step. Qed.

Lemma readonly_getAccessDeniedRouteFor routePath :
  readonly (getAccessDeniedRouteFor routePath).
Proof.
  unfold getAccessDeniedRouteFor. repeat (readonly_step || auto with readonly).
Qed.

(** X17.  The getters of the provider only read: whether they return or
    throw, the state is the one they were called in. *)
Theorem getters_read_only routePath route :
  readonly getCurrentRoutePath ∧
  readonly (routeExists route) ∧
  readonly (getRoute route) ∧
  readonly (getPermissionsFromRoute routePath) ∧
  readonly (getPermissionsSync routePath) ∧
  readonly hasCustomAuthorization ∧
  readonly getCustomAuthorization ∧
  readonly (hasCustomRouteAuthorization route) ∧
  readonly (getCustomRouteAuthorization routePath) ∧
  readonly getDefaultAccess ∧
  readonly (getAccessDeniedRouteFor routePath).
Proof.
  repeat split; auto using readonly_routeExists, readonly_getAccessDeniedRouteFor
    with readonly.
Qed.

(** X18.  A setter that throws has set nothing: when [setPermissions] or
    [setAccessDeniedRouteFor] throws, the state is unchanged. *)
Theorem setters_throw_unchanged newValue routePath st e :
  (fst (setPermissions newValue routePath st) = Throw e →
   snd (setPermissions newValue routePath st) = st) ∧
  (fst (setAccessDeniedRouteFor newValue routePath st) = Throw e →
   snd (setAccessDeniedRouteFor newValue routePath st) = st).
Proof.
  destruct (fst (or_current routePath st)) as [p|e'] eqn:H.
  - rewrite (setPermissions_run _ _ _ _ H), (setAccessDeniedRouteFor_run _ _ _ _ H).
    destruct (routes st !! p) as [route|]; [|done].
    split; [done|]. by destruct (routes st !! "[object Object]").
  - unfold setPermissions, setAccessDeniedRouteFor.
    by rewrite !bind_run, (or_current_throws _ _ _ H).
Qed.

(** X19.  [getAccessDeniedRouteFor] never hands back a falsy target: what
    it returns is the route's [deniedRoute] when that is truthy and
    ['/forbidden'] in every other case. *)
Theorem getAccessDeniedRouteFor_target routePath st target :
  fst (getAccessDeniedRouteFor routePath st) = Ok target →
  truthy target = true ∧
  ∃ p route,
    fst (or_current routePath st) = Ok p ∧ routes st !! p = Some route ∧
    (target = Route.deniedRoute route ∨
     truthy (Route.deniedRoute route) = false ∧ target = VStr "/forbidden").
Proof.
  destruct (fst (or_current routePath st)) as [p|e] eqn:H.
  - rewrite (getAccessDeniedRouteFor_run _ _ _ H).
    destruct (routes st !! p) as [route|] eqn:Hr; [|discriminate].
    simpl. intros [= <-]. unfold js_or.
    destruct (truthy (Route.deniedRoute route)) eqn:E.
    + split; [done|]. exists p, route. auto.
    + split; [done|]. exists p, route. auto.
  - unfold getAccessDeniedRouteFor.
    by rewrite bind_run, (or_current_throws _ _ _ H).
Qed.

Lemma getAccessDeniedRouteFor_target_witness :
  truthy (VStr "/forbidden") = true ∧
  ∃ p route,
    fst (or_current None (single_route VUndef "/")) = Ok p ∧
    routes (single_route VUndef "/") !! p = Some route ∧
    (VStr "/forbidden" = Route.deniedRoute route ∨
     truthy (Route.deniedRoute route) = false ∧ VStr "/forbidden" = VStr "/forbidden").
Proof.
  exact (getAccessDeniedRouteFor_target None (single_route VUndef "/")
           (VStr "/forbidden") eq_refl).
Defined.

(** ** The matcher, continued *)

(** X21.  On [null] or [undefined] as the document [findIn] throws a
    TypeError for every query and every delimiter, the empty query
    included: there is always a first token to look up. *)
Theorem findIn_null_document query delimiter :
  findIn query VNull delimiter = Throw TypeError ∧
  findIn query VUndef delimiter = Throw TypeError.
Proof.
  unfold findIn, split.
  pose proof (split_from_nonempty (delimiter_or_slash delimiter) query 0%nat "").
  by destruct (split_from _ _ _ _).
Qed.

Lemma split_from_without_separator sep s : ∀ cur,
  no_separator sep s = true → split_from sep 0 cur s = [rev_string s cur].
Proof.
  induction s as [|ch s IH]; intros cur; cbn [split_from no_separator]; [done|].
  intros [Hp Hs]%andb_prop. apply negb_true_iff in Hp.
  rewrite Hp, (IH _ Hs). done.
Qed.

(** X22.  A query in which the delimiter does not occur is a single token:
    against a mapping that holds a defined value under the whole query as
    a key, [findIn] answers with the truthiness of that value, so that a
    key whose value is [false], [0], [""] or [null] counts as not found. *)
Theorem findIn_single_token query kvs delimiter :
  no_separator (delimiter_or_slash delimiter) query = true →
  own_property kvs query ≠ VUndef →
  findIn query (VObj kvs) delimiter = Ok (truthy (own_property kvs query)).
Proof.
  intros H Hdef. unfold findIn, split.
  rewrite (split_from_without_separator _ _ _ H).
  cbn [rev_string findIn_loop get_prop].
  by rewrite (is_undefined_false _ Hdef).
Qed.

Lemma findIn_single_token_witness :
  findIn "GET/page" (VObj [("GET/page", VNum 0); ("PUT", VNum 1)]) (Some "#") =
    Ok false ∧
  findIn "PUT" (VObj [("GET/page", VNum 0); ("PUT", VNum 1)]) None = Ok true.
Proof.
  split.
  - exact (findIn_single_token "GET/page" [("GET/page", VNum 0); ("PUT", VNum 1)]
             (Some "#") eq_refl ltac:(discriminate)).
  - exact (findIn_single_token "PUT" [("GET/page", VNum 0); ("PUT", VNum 1)]
             None eq_refl ltac:(discriminate)).
Defined.

(** X23.  A query that starts with the delimiter has the empty string as
    its first token: against a mapping without a defined entry under the
    empty key [findIn] answers [false], whatever follows.  The location
    paths that the gate passes to [isAuthorized] are such queries. *)
Theorem findIn_leading_slash rest kvs :
  own_property kvs "" = VUndef →
  findIn (String "/" rest) (VObj kvs) None = Ok false.
Proof.
  intros H. unfold findIn, split, delimiter_or_slash. cbn [split_from].
  assert (String.prefix "/" (String "/" rest) = true) as ->
    by (by destruct rest).
  cbn [rev_string findIn_loop get_prop]. by rewrite H.
Qed.

Lemma findIn_leading_slash_witness :
  findIn "/GET/page/1" sample_document None = Ok false.
Proof.
  exact (findIn_leading_slash "GET/page/1"
           [("GET", VObj [("page", VArr [VNum 1; VNum 2; VNum 3]);
                          ("other", VArr [VNum 1; VStr "a/b"])]);
            ("PUT", VObj [("page", VArr [VNum 1])])] eq_refl).
Defined.

Lemma indexOf_from_numbers ns token : ∀ i,
  indexOf_from i (VNum <$> ns) token = -1.
Proof. induction ns as [|n ns IH]; intros i; simpl; [done|apply IH]. Qed.

(** X24.  In a sequence of numbers a numeric token selects by position,
    never by value: for a single-token query that is an array index,
    [findIn] answers with the truthiness of the element at that index and
    [false] when the index is out of range; the search by value finds
    nothing, a token being a string and identical to no number. *)
Theorem findIn_sequence_of_numbers query i ns delimiter :
  no_separator (delimiter_or_slash delimiter) query = true →
  array_index query = Some i →
  findIn query (VArr (VNum <$> ns)) delimiter =
  Ok (truthy (element (VNum <$> ns) i)).
Proof.
  intros H Hi. unfold findIn, split.
  rewrite (split_from_without_separator _ _ _ H).
  cbn [rev_string findIn_loop get_prop]. rewrite Hi.
  assert (String.eqb query "length" = false) as ->.
  { destruct (String.eqb_spec query "length") as [->|]; [discriminate Hi|done]. }
  destruct (element (VNum <$> ns) i) eqn:E; try done.
  unfold indexOf. by rewrite indexOf_from_numbers.
Qed.

Lemma findIn_sequence_of_numbers_witness :
  findIn "23" (VArr (VNum <$> [23; 24; 25])) None = Ok false ∧
  findIn "2" (VArr (VNum <$> [23; 24; 25])) None = Ok true.
Proof.
  split.
  - exact (findIn_sequence_of_numbers "23" 23%N [23; 24; 25] None eq_refl eq_refl).
  - exact (findIn_sequence_of_numbers "2" 2%N [23; 24; 25] None eq_refl eq_refl).
Defined.
